(** * redis-mysql-store: a two-tier keystore (Redis cache over a MySQL table)

    Shallow embedding of [src/index.ts] (class [Database]) and proofs about
    its read path, write path, maintenance job and configuration handling.

    The class talks to two external servers through promise-returning
    clients.  Its methods are JavaScript [async] functions, several of which
    are called without [await].  The embedding therefore has three layers:

    - the two servers, as finite maps with a command interpreter [exec];
    - the methods of the class, as terms of a small process type [proc]
      whose constructors are the effects the source performs (client
      request, [emit], logger call, un-awaited call);
    - the event loop, as a scheduler [run] that settles one outstanding
      client request per step, in an order given by a schedule.

    What the embedding leaves out:

    - connecting: the methods are studied on an instance whose two
      connections are up; [init] is embedded on its own (section Start-up),
      not interleaved with them; [cleanup] and [closeDB], which hook the
      process, are not embedded;
    - time: a cache entry records the expiry it was given, nothing expires;
    - the column types and collation of the table: it is a map from keys to
      values, and a statement the server would refuse is a failing request;
    - listeners: [emit] only records the event;
    - what Node does with a rejected promise nobody holds: the trace
      records it and the loop goes on. *)

From Stdlib Require Import ZArith Ascii.
From stdpp Require Import gmap strings list fin_maps.

Local Open Scope string_scope.
Local Open Scope Z_scope.
Local Open Scope list_scope.

(** ** JavaScript values used by the class *)

(** Truthiness of a [string]: only the empty string is falsy. *)
Definition truthy_str (s : string) : bool :=
  match s with
  | EmptyString => false
  | String _ _ => true
  end.

(** Truthiness of a [string | null | undefined]. *)
Definition truthy_opt (o : option string) : bool :=
  match o with
  | Some s => truthy_str s
  | None => false
  end.

(** Truthiness of a [number].  Numbers are embedded as integers: the
    intervals and expiry times the class handles are counts of seconds or
    milliseconds, so [NaN] and fractions are left out; [0] is the only
    falsy integer. *)
Definition truthy_num (n : Z) : bool := negb (n =? 0).

(** Truthiness of a [number | undefined]. *)
Definition truthy_optnum (o : option Z) : bool :=
  match o with
  | Some n => truthy_num n
  | None => false
  end.

(** [if (x) { th x } else { el }] on a [string | null], with the narrowing
    TypeScript performs in the first branch. *)
Definition if_truthy {A : Type} (o : option string) (th : string → A) (el : A) : A :=
  match o with
  | Some s => if truthy_str s then th s else el
  | None => el
  end.

(** Template-literal rendering of a [string | null]. *)
Definition show_opt (o : option string) : string :=
  match o with
  | Some s => s
  | None => "null"
  end.

(** Template-literal rendering of a [string[]]: elements joined by commas. *)
Fixpoint show_keys (l : list string) : string :=
  match l with
  | [] => ""
  | [k] => k
  | k :: rest => k +:+ "," +:+ show_keys rest
  end.

(** ** The two servers *)

(** Requests the class sends through its clients.  The [Sql*] requests are
    the four parameterised statements of [getSqlApi], against the single
    table the instance is bound to; the [Redis*] requests are the methods
    called on the Redis client. *)
Inductive cmd : Type :=
| SqlSelectValue (key : string)          (* SELECT valueX ... where keyX = ? *)
| SqlUpsert (key value : string)         (* INSERT ... ON DUPLICATE KEY UPDATE *)
| SqlDelete (key : string)               (* DELETE ... WHERE keyX = ? *)
| SqlSelectKeys                          (* SELECT keyX FROM ... *)
| RedisGet (key : string)
| RedisSet (key value : string)
| RedisExpire (key : string) (seconds : Z)
| RedisDel (keys : list string)
| RedisKeys (pattern : string)
| RedisFlushAll.

#[global] Instance cmd_eq_dec : EqDecision cmd.
Proof. solve_decision. Defined.

(** The tier a request goes to (the [on] field of the emitted events). *)
Inductive tier : Type := SQL | REDIS.

#[global] Instance tier_eq_dec : EqDecision tier.
Proof. solve_decision. Defined.

Definition cmd_tier (c : cmd) : tier :=
  match c with
  | SqlSelectValue _ | SqlUpsert _ _ | SqlDelete _ | SqlSelectKeys => SQL
  | _ => REDIS
  end.

(** What a server answers. *)
Inductive reply : Type :=
| Bulk (o : option string)    (* a string or nil *)
| Rows (l : list string)      (* result rows / array of keys *)
| Count (n : Z)               (* integer reply *)
| Status (s : string).        (* "OK" *)

(** How the promise of a request settles. *)
Inductive result : Type :=
| Fulfilled (r : reply)
| Rejected (e : string).

(** A cache entry: the value and the remaining time to live in seconds
    ([None]: no expiry).  The model has no clock; the expiry is kept as
    data so that what the class asks for can be read back. *)
Abbreviation entry := (string * option Z)%type.

(** The state of the two servers, and which requests fail.  [w_fault c]
    makes request [c] reject (connection lost, statement refused by the
    server, value too long for the column, ...). *)
Record world : Type := World {
  w_sql : gmap string string;
  w_redis : gmap string entry;
  w_fault : cmd → bool;
}.

Definition with_sql (w : world) (m : gmap string string) : world :=
  {| w_sql := m; w_redis := w_redis w; w_fault := w_fault w |}.

Definition with_redis (w : world) (m : gmap string entry) : world :=
  {| w_sql := w_sql w; w_redis := m; w_fault := w_fault w |}.

(** Glob matching as Redis [KEYS] does it, for patterns built from literal
    characters, [?] and [*]. *)
Fixpoint glob (pat : string) : string → bool :=
  match pat with
  | EmptyString => fun s => if s is EmptyString then true else false
  | String "*"%char pat' =>
      fix star (s : string) : bool :=
        glob pat' s || (if s is String _ s' then star s' else false)
  | String "?"%char pat' =>
      fun s => if s is String _ s' then glob pat' s' else false
  | String c pat' =>
      fun s => if s is String c' s' then bool_decide (c = c') && glob pat' s' else false
  end.

(** Keys of a map, in the order the map enumerates them. *)
Definition map_keys {V : Type} (m : gmap string V) : list string :=
  (map_to_list m).*1.

(** Removing a list of keys. *)
Definition delete_all {V : Type} (ks : list string) (m : gmap string V) : gmap string V :=
  foldr delete m ks.

(** Number of keys of [ks] that [DEL] removes, counting left to right. *)
Fixpoint count_removed {V : Type} (ks : list string) (m : gmap string V) : Z :=
  match ks with
  | [] => 0
  | k :: rest =>
      (if m !! k is Some _ then 1 else 0) + count_removed rest (delete k m)
  end.

(** The effect of one request on the servers, when it does not fail.
    [SET] drops a previous expiry; [EXPIRE] on a missing key answers 0 and
    with a non-positive time removes the key; [DEL] needs at least one key. *)
Definition serve (c : cmd) (w : world) : result * world :=
  match c with
  | SqlSelectValue k =>
      (Fulfilled (Rows (option_list (w_sql w !! k))), w)
  | SqlUpsert k v =>
      (Fulfilled (Status "OK"), with_sql w (<[k := v]> (w_sql w)))
  | SqlDelete k =>
      (Fulfilled (Status "OK"), with_sql w (delete k (w_sql w)))
  | SqlSelectKeys =>
      (Fulfilled (Rows (map_keys (w_sql w))), w)
  | RedisGet k =>
      (Fulfilled (Bulk (fst <$> w_redis w !! k)), w)
  | RedisSet k v =>
      (Fulfilled (Status "OK"), with_redis w (<[k := (v, None)]> (w_redis w)))
  | RedisExpire k n =>
      match w_redis w !! k with
      | None => (Fulfilled (Count 0), w)
      | Some (v, _) =>
          if n <=? 0
          then (Fulfilled (Count 1), with_redis w (delete k (w_redis w)))
          else (Fulfilled (Count 1), with_redis w (<[k := (v, Some n)]> (w_redis w)))
      end
  | RedisDel ks =>
      match ks with
      | [] => (Rejected "ERR wrong number of arguments for 'del' command", w)
      | _ => (Fulfilled (Count (count_removed ks (w_redis w))),
              with_redis w (delete_all ks (w_redis w)))
      end
  | RedisKeys pat =>
      (Fulfilled (Rows (filter (λ k, glob pat k = true) (map_keys (w_redis w)))), w)
  | RedisFlushAll =>
      (Fulfilled (Status "OK"), with_redis w ∅)
  end.

(** A request either fails, leaving the servers as they were, or is served. *)
Definition exec (c : cmd) (w : world) : result * world :=
  if w_fault w c then (Rejected "request failed", w) else serve c w.

(** ** Effects of the class *)

(** [this.emit(name, payload)].  The three event names carry different
    payloads: [{key, value, on}] for "get" (the value may be [null]) and
    "set", and [{key, on}] for "delete". *)
Inductive event : Type :=
| EvGet (key : string) (value : option string) (on : tier)
| EvSet (key value : string) (on : tier)
| EvDelete (key : string) (on : tier).

(** Calls of the pino logger. *)
Inductive logline : Type :=
| LogInfo (msg : string)
| LogKeys (keys : list string)
| LogError (e : string).

(** Bodies of [async] functions.  [Req c k] is [await] on a client request:
    the request is sent and the body is suspended until the promise
    settles.  [Spawn p k] calls the async function [p] and drops its
    promise: [p] runs up to its first suspension, then [k] goes on. *)
Inductive proc (A : Type) : Type :=
| Ret (a : A)
| Throw (e : string)
| Req (c : cmd) (k : result → proc A)
| Emit (e : event) (k : proc A)
| Log (l : logline) (k : proc A)
| Spawn (p : proc unit) (k : proc A).

Arguments Ret {A} a.
Arguments Throw {A} e.
Arguments Req {A} c k.
Arguments Emit {A} e k.
Arguments Log {A} l k.
Arguments Spawn {A} p k.

(** Sequencing: [const x = await p; f x]. *)
Fixpoint pbind {A B : Type} (p : proc A) (f : A → proc B) : proc B :=
  match p with
  | Ret a => f a
  | Throw e => Throw e
  | Req c k => Req c (λ r, pbind (k r) f)
  | Emit e k => Emit e (pbind k f)
  | Log l k => Log l (pbind k f)
  | Spawn q k => Spawn q (pbind k f)
  end.

#[global] Instance proc_ret : MRet proc := @Ret.
#[global] Instance proc_bind : MBind proc := λ A B f p, pbind p f.
#[global] Instance proc_fmap : FMap proc := λ A B f p, pbind p (λ a, Ret (f a)).

(** [try { p } catch (e) { h e }].  A rejection of a promise that [p]
    dropped is not caught: the handler only sees what [p] itself throws. *)
Fixpoint try_catch {A : Type} (p : proc A) (h : string → proc A) : proc A :=
  match p with
  | Ret a => Ret a
  | Throw e => h e
  | Req c k => Req c (λ r, try_catch (k r) h)
  | Emit e k => Emit e (try_catch k h)
  | Log l k => Log l (try_catch k h)
  | Spawn q k => Spawn q (try_catch k h)
  end.

(** [await client.request(...)]: the reply, or the rejection thrown. *)
Definition await (c : cmd) : proc reply :=
  Req c (λ r, match r with
              | Fulfilled x => Ret x
              | Rejected e => Throw e
              end).

(** Calling an async function as a statement, without [await]. *)
Definition detach {A : Type} (p : proc A) : proc unit :=
  Spawn (pbind p (λ _, Ret tt)) (Ret tt).

(** ** The event loop *)

(** What an observer of the process sees, in order. *)
Inductive obs : Type :=
| OIssue (c : cmd)                 (* a request is handed to a client *)
| OSettle (c : cmd) (r : result)   (* the server has handled it *)
| OEmit (e : event)
| OLog (l : logline)
| OUnhandled (e : string).         (* a dropped promise rejected *)

(** Where a body stands after running as far as it can. *)
Inductive status (A : Type) : Type :=
| Done (a : A)
| Failed (e : string)
| Blocked (c : cmd) (k : result → proc A).

Arguments Done {A} a.
Arguments Failed {A} e.
Arguments Blocked {A} c k.

(** A suspended body whose promise nobody holds. *)
Definition orphan : Type := cmd * (result → proc unit).

Definition orphan_of (s : status unit) : list orphan :=
  match s with
  | Blocked c k => [(c, k)]
  | _ => []
  end.

Definition unhandled_of (s : status unit) : list obs :=
  match s with
  | Failed e => [OUnhandled e]
  | _ => []
  end.

(** Run a body up to its first suspension: the observations made, the
    dropped calls now waiting on a request (in the order the requests were
    sent), and where the body stands. *)
Fixpoint advance {A : Type} (p : proc A) : list obs * list orphan * status A :=
  match p with
  | Ret a => ([], [], Done a)
  | Throw e => ([], [], Failed e)
  | Req c k => ([OIssue c], [], Blocked c k)
  | Emit e k =>
      let '(o, bg, s) := advance k in (OEmit e :: o, bg, s)
  | Log l k =>
      let '(o, bg, s) := advance k in (OLog l :: o, bg, s)
  | Spawn q k =>
      let '(oq, bgq, sq) := advance q in
      let '(o, bg, s) := advance k in
      (oq ++ unhandled_of sq ++ o, bgq ++ orphan_of sq ++ bg, s)
  end.

(** How the awaited call ended. *)
Inductive outcome (A : Type) : Type :=
| Resolved (a : A)
| Threw (e : string).

Arguments Resolved {A} a.
Arguments Threw {A} e.

(** A body waiting for a reply: the call under observation, or an orphan. *)
Inductive thread (A : Type) : Type :=
| Fg (k : result → proc A)
| Bg (k : result → proc unit).

Arguments Fg {A} k.
Arguments Bg {A} k.

Record state (A : Type) : Type := State {
  st_world : world;
  st_trace : list obs;
  st_pending : list (cmd * thread A);
  st_outcome : option (outcome A);
}.

Arguments State {A} _ _ _ _.
Arguments st_world {A} _.
Arguments st_trace {A} _.
Arguments st_pending {A} _.
Arguments st_outcome {A} _.

Definition bg_pending {A : Type} (l : list orphan) : list (cmd * thread A) :=
  (λ o, (o.1, Bg o.2)) <$> l.

(** Continue the observed call. *)
Definition resume_fg {A : Type} (st : state A) (p : proc A) : state A :=
  let '(o, bg, s) := advance p in
  State (st_world st) (st_trace st ++ o)
    (st_pending st ++ bg_pending bg ++
       match s with Blocked c k => [(c, Fg k)] | _ => [] end)
    match s with
    | Done a => Some (Resolved a)
    | Failed e => Some (Threw e)
    | Blocked _ _ => st_outcome st
    end.

(** Continue an orphan. *)
Definition resume_bg {A : Type} (st : state A) (p : proc unit) : state A :=
  let '(o, bg, s) := advance p in
  State (st_world st) (st_trace st ++ o ++ unhandled_of s)
    (st_pending st ++ bg_pending bg ++ bg_pending (orphan_of s))
    (st_outcome st).

(** The request the servers handle next: number [n] among those pending,
    the oldest one when there is no number [n]. *)
Definition pick {X : Type} (n : nat) (l : list X) : option (X * list X) :=
  match l !! n with
  | Some x => Some (x, delete n l)
  | None =>
      match l with
      | [] => None
      | x :: rest => Some (x, rest)
      end
  end.

(** One turn of the event loop: a pending request is handled by its
    server and the body that waited for it runs to its next suspension. *)
Definition step {A : Type} (n : nat) (st : state A) : state A :=
  match pick n (st_pending st) with
  | None => st
  | Some ((c, t), rest) =>
      let '(r, w') := exec c (st_world st) in
      let st' := State w' (st_trace st ++ [OSettle c r]) rest (st_outcome st) in
      match t with
      | Fg k => resume_fg st' (k r)
      | Bg k => resume_bg st' (k r)
      end
  end.

(** Calling [p] in world [w]. *)
Definition start {A : Type} (w : world) (p : proc A) : state A :=
  resume_fg (State w [] [] None) p.

(** The event loop under a schedule. *)
Definition run {A : Type} (sched : list nat) (st : state A) : state A :=
  foldl (λ s n, step n s) st sched.

(** Nothing is pending. *)
Definition quiescent {A : Type} (st : state A) : Prop := st_pending st = [].

(** A pending body is an orphan. *)
Definition is_bg {A : Type} (x : cmd * thread A) : Prop :=
  match x.2 with
  | Bg _ => True
  | Fg _ => False
  end.

(** ** The class [Database] *)

(** The [config] argument of the constructor; every field is optional. *)
Module Config.
Record t : Type := Make {
  redisAutoFlushInterval : option Z;
  redisAutoTempFlushInterval : option Z;
  debug : option bool;
  sqlTable : option string;
  defaultExpire : option Z;
}.
End Config.

(** The fields of an instance that its methods read.  [client] stands for
    the Redis client, by the URL it was created with. *)
Record Database : Type := Instance {
  redisAutoFlushInterval : option Z;
  redisAutoTempFlushInterval : option Z;
  debug : bool;
  sqlTable : string;
  sqlURI : string;
  defaultExpire : Z;
  client : string;
}.

(** The field initialisers of the class ([debug = false],
    [sqlTable = "storekey"]); the fields the constructor assigns later
    hold a placeholder until then. *)
Definition initial : Database :=
  {| redisAutoFlushInterval := None;
     redisAutoTempFlushInterval := None;
     debug := false;
     sqlTable := "storekey";
     sqlURI := "";
     defaultExpire := 0;
     client := "" |}.

(** [config?.field]. *)
Definition opt_field {X : Type} (config : option Config.t)
    (f : Config.t → option X) : option X :=
  match config with
  | Some c => f c
  | None => None
  end.

(** [doConfig]: each of the four settings is taken over when it is truthy. *)
Definition doConfig (config : option Config.t) (this : Database) : Database :=
  {| redisAutoFlushInterval :=
       if truthy_optnum (opt_field config Config.redisAutoFlushInterval)
       then opt_field config Config.redisAutoFlushInterval
       else redisAutoFlushInterval this;
     redisAutoTempFlushInterval :=
       if truthy_optnum (opt_field config Config.redisAutoTempFlushInterval)
       then opt_field config Config.redisAutoTempFlushInterval
       else redisAutoTempFlushInterval this;
     debug :=
       match opt_field config Config.debug with
       | Some true => true
       | _ => debug this
       end;
     sqlTable :=
       if_truthy (opt_field config Config.sqlTable) (λ s, s) (sqlTable this);
     sqlURI := sqlURI this;
     defaultExpire := defaultExpire this;
     client := client this |}.

(** [config?.defaultExpire || 60 * 60]. *)
Definition expire_or_default (config : option Config.t) : Z :=
  match opt_field config Config.defaultExpire with
  | Some n => if truthy_num n then n else 60 * 60
  | None => 60 * 60
  end.

(** The constructor, up to the point where it starts connecting: the
    instance, or the message of the [Error] it throws. *)
Definition constructor (redisURI sqlURI : option string)
    (config : option Config.t) : string + Database :=
  let this := doConfig config initial in
  let expire := expire_or_default config in
  if_truthy redisURI
    (λ redis,
       if_truthy sqlURI
         (λ sql,
            inr {| redisAutoFlushInterval := redisAutoFlushInterval this;
                   redisAutoTempFlushInterval := redisAutoTempFlushInterval this;
                   debug := debug this;
                   sqlTable := sqlTable this;
                   sqlURI := sql;
                   defaultExpire := expire;
                   client := redis |})
         (inl "Keystore Error: No SQL URI found!"))
    (inl "Keystore Error: No REDIS URI found!").

(** Small statements. *)
Definition emit (e : event) : proc unit := Emit e (Ret tt).
Definition log (l : logline) : proc unit := Log l (Ret tt).
Definition when (b : bool) (p : proc unit) : proc unit := if b then p else Ret tt.

(** Reading a reply at the type the call site expects. *)
Definition rows_of (r : reply) : list string :=
  if r is Rows l then l else [].
Definition bulk_of (r : reply) : option string :=
  if r is Bulk o then o else None.
Definition count_of (r : reply) : Z :=
  if r is Count n then n else 0.
Definition status_of (r : reply) : string :=
  if r is Status s then s else "".

(** *** [getSqlApi] *)
Module Sql.

Definition get (this : Database) (key : string) : proc (option string) :=
  rep ← await (SqlSelectValue key);
  let value := if rows_of rep is row :: _ then Some row else None in
  emit (EvGet key value SQL);;
  mret value.

Definition set (this : Database) (key value : string) : proc unit :=
  await (SqlUpsert key value);;
  emit (EvSet key value SQL).

Definition delete (this : Database) (key : string) : proc unit :=
  await (SqlDelete key);;
  emit (EvDelete key SQL).

Definition getAllKeys (this : Database) : proc (list string) :=
  rep ← await SqlSelectKeys;
  mret (rows_of rep).

End Sql.

(** *** [getRedisApi] *)
Inductive flush_type : Type := ALL | TEMP.

Module Redis.

Definition get (this : Database) (key : string) : proc (option string) :=
  when (debug this) (log (LogInfo ("GETTING " +:+ key +:+ " [REDIS]")));;
  try_catch
    (rep ← await (RedisGet key);
     let value := bulk_of rep in
     emit (EvGet key value REDIS);;
     when (debug this)
       (log (LogInfo ("GOT " +:+ show_opt value +:+ " FOR " +:+ key +:+ " [REDIS]")));;
     mret value)
    (λ e, log (LogError e);; mret None).

Definition set (this : Database) (key value : string) (expire : option Z) : proc bool :=
  when (debug this) (log (LogInfo ("SET " +:+ key +:+ " AS " +:+ value +:+ " [REDIS]")));;
  try_catch
    (await (RedisSet key value);;
     emit (EvSet key value REDIS);;
     match expire with
     | Some n => if truthy_num n then await (RedisExpire key n);; mret tt else mret tt
     | None => mret tt
     end;;
     mret true)
    (λ e, log (LogError e);; mret false).

(** [keys] is a single key ([inl]) or an array of keys ([inr]). *)
Definition delete (this : Database) (keys : string + list string) : proc Z :=
  when (debug this)
    (log (LogInfo ("DELETE: " +:+
                   match keys with inl k => k | inr ks => show_keys ks end +:+
                   " [" +:+
                   match keys with inl _ => "string" | inr _ => "object" end +:+
                   "]")));;
  match keys with
  | inl k => count_of <$> await (RedisDel [k])
  | inr ks => count_of <$> await (RedisDel ks)
  end.

Definition flush (this : Database) (type : flush_type) : proc string :=
  match type with
  | ALL => status_of <$> await RedisFlushAll
  | TEMP =>
      try_catch
        (Spawn
           (rep ← await (RedisKeys "temp:*");
            let keys := rows_of rep in
            if (0 <? length keys)%nat
            then log (LogKeys keys);; detach (delete this (inr keys))
            else mret tt)
           (mret "ERR"))
        (λ e, log (LogError e);; mret "ERR")
  end.

End Redis.

(** *** The three methods assigned in the constructor *)
Module Keystore.

Definition get (this : Database) (key : string) : proc (option string) :=
  redisResponse ← Redis.get this key;
  if truthy_opt redisResponse then mret (Some key)
  else
    mySqlResponse ← Sql.get this key;
    if_truthy mySqlResponse
      (λ value,
         detach (Redis.set this key value (Some (defaultExpire this)));;
         mret (Some value))
      (mret None).

Definition set (this : Database) (key value : string) : proc unit :=
  detach (Sql.set this key value);;
  detach (Redis.set this key value (Some (defaultExpire this))).

Definition delete (this : Database) (key : string) : proc unit :=
  detach (Sql.delete this key);;
  detach (Redis.delete this (inl key)).

End Keystore.

(** *** The two maintenance timers started by [init] *)

(** [setInterval(job, every)]. *)
Record timer : Type := Timer {
  every : Z;
  job : proc unit;
}.

(** [autoTempFlush]: the debug line it logs and the timer it registers. *)
Definition autoTempFlush (this : Database) : list logline * option timer :=
  match redisAutoTempFlushInterval this with
  | Some n =>
      if truthy_num n then
        if n =? -1 then ([], None)
        else (if debug this then [LogInfo "CHORE: FLUSH TEMP KEYS [REDIS]"] else [],
              Some (Timer n (detach (Redis.flush this TEMP))))
      else ([], None)
  | None => ([], None)
  end.

(** [autoFlush]: the timer it registers. *)
Definition autoFlush (this : Database) : option timer :=
  match redisAutoFlushInterval this with
  | Some n =>
      if truthy_num n then
        if n =? -1 then None
        else Some (Timer n
                     (when (debug this) (log (LogInfo "CHORE: FLUSH ALL KEYS [REDIS]"));;
                      detach (Redis.flush this ALL)))
      else None
  | None => None
  end.

(** ** Reading runs *)

(** The servers after [p] was called in [w] and the loop made the turns [s]. *)
Definition world_after {A : Type} (s : list nat) (w : world) (p : proc A) : world :=
  st_world (run s (start w p)).

(** The trace of that run, and how the call ended. *)
Definition trace_of {A : Type} (s : list nat) (w : world) (p : proc A) : list obs :=
  st_trace (run s (start w p)).

Definition outcome_of {A : Type} (s : list nat) (w : world) (p : proc A) : option (outcome A) :=
  st_outcome (run s (start w p)).

(** The events of a trace. *)
Definition emitted (t : list obs) : list event :=
  omap (λ o, if o is OEmit e then Some e else None) t.

(** The fields of an event payload; [ev_value] is [None] when the payload
    has no [value] field and [Some None] when the field is [null]. *)
Definition ev_name (e : event) : string :=
  match e with
  | EvGet _ _ _ => "get"
  | EvSet _ _ _ => "set"
  | EvDelete _ _ => "delete"
  end.

Definition ev_key (e : event) : string :=
  match e with
  | EvGet k _ _ | EvSet k _ _ | EvDelete k _ => k
  end.

Definition ev_value (e : event) : option (option string) :=
  match e with
  | EvGet _ v _ => Some v
  | EvSet _ v _ => Some (Some v)
  | EvDelete _ _ => None
  end.

Definition ev_on (e : event) : tier :=
  match e with
  | EvGet _ _ t | EvSet _ _ t | EvDelete _ t => t
  end.

(** Index of the first observation satisfying [P]. *)
Fixpoint position (P : obs → bool) (t : list obs) : option nat :=
  match t with
  | [] => None
  | o :: rest => if P o then Some 0%nat else S <$> position P rest
  end.

Definition is_issue (c : cmd) (o : obs) : bool :=
  match o with
  | OIssue c' => bool_decide (c' = c)
  | _ => false
  end.

Definition is_settle (c : cmd) (o : obs) : bool :=
  match o with
  | OSettle c' _ => bool_decide (c' = c)
  | _ => false
  end.

(** Both observations occur, the first before the second. *)
Definition earlier (P Q : obs → bool) (t : list obs) : bool :=
  match position P t, position Q t with
  | Some i, Some j => bool_decide (i < j)%nat
  | _, _ => false
  end.

(** Request [c1] was handled by its server before [c2] was sent. *)
Definition settled_before_issued (c1 c2 : cmd) (t : list obs) : bool :=
  earlier (is_settle c1) (is_issue c2) t.

(** Request [c1] was sent before [c2] was sent. *)
Definition issued_before_issued (c1 c2 : cmd) (t : list obs) : bool :=
  earlier (is_issue c1) (is_issue c2) t.

(** ** Scenarios *)

(** Servers on which every request succeeds, or all but one. *)
Definition no_fault : cmd → bool := λ _, false.
Definition fails_on (c : cmd) : cmd → bool := λ c', bool_decide (c' = c).

(** [new Database({ redisURI: "redis://localhost", sqlURI: "mysql://localhost" })]. *)
Definition plain : Database :=
  {| redisAutoFlushInterval := None;
     redisAutoTempFlushInterval := None;
     debug := false;
     sqlTable := "storekey";
     sqlURI := "mysql://localhost";
     defaultExpire := 3600;
     client := "redis://localhost" |}.

(** The cache of the spec's flush scenario. *)
Definition temp_cache : gmap string entry :=
  {[ "temp:a" := ("1", None); "temp:b" := ("2", None); "other:c" := ("3", None) ]}.

(** ** Start-up *)

(** The four things [init] waits for, in order: the Redis connection, the
    MySQL connection object, its handshake, and the [CREATE TABLE IF NOT
    EXISTS] statement. *)
Inductive boot_step : Type :=
| RedisConnect
| SqlCreateConnection
| SqlConnect
| SqlCreateTable.

(** What [init] does besides waiting. *)
Inductive boot_obs : Type :=
| BLog (l : logline)
| BReady                    (* emit("ready") *)
| BInterval (t : timer).    (* setInterval(job, every) *)

Definition boot_debug (this : Database) (msg : string) : list boot_obs :=
  if debug this then [BLog (LogInfo msg)] else [].

(** [await step; rest] inside the [try] of [init]: a rejection skips the
    rest of the block and is logged by the [catch]. *)
Definition boot_await (fails : boot_step → bool) (st : boot_step)
    (rest : list boot_obs) : list boot_obs :=
  if fails st then [BLog (LogError "request failed")] else rest.

Definition boot_timer (t : option timer) : list boot_obs :=
  match t with
  | Some tm => [BInterval tm]
  | None => []
  end.

(** [init], given which of its steps fail. *)
Definition init (this : Database) (fails : boot_step → bool) : list boot_obs :=
  boot_debug this "CONNECTING TO REDIS..." ++
  boot_await fails RedisConnect
    (boot_debug this "CONNECTED TO REDIS!" ++
     boot_debug this "CONNECTING TO SQL..." ++
     boot_await fails SqlCreateConnection
       (boot_await fails SqlConnect
          (boot_debug this "CONNECTED TO SQL!" ++
           boot_await fails SqlCreateTable
             (BReady ::
              (BLog <$> (autoTempFlush this).1) ++
              boot_timer (autoTempFlush this).2 ++
              boot_timer (autoFlush this))))).

(** ** Footprints *)

(** [within C L E p]: every request [p] can ever send satisfies [C], every
    line it can log satisfies [L], every event it can emit satisfies [E],
    whatever the servers answer. *)
Inductive within (C : cmd → Prop) (L : logline → Prop) (E : event → Prop) :
  ∀ {A : Type}, proc A → Prop :=
| within_Ret {A : Type} (a : A) : within C L E (Ret a)
| within_Throw {A : Type} (e : string) : within C L E (@Throw A e)
| within_Req {A : Type} (c : cmd) (k : result → proc A) :
    C c → (∀ r, within C L E (k r)) → within C L E (Req c k)
| within_Emit {A : Type} (e : event) (k : proc A) :
    E e → within C L E k → within C L E (Emit e k)
| within_Log {A : Type} (l : logline) (k : proc A) :
    L l → within C L E k → within C L E (Log l k)
| within_Spawn {A : Type} (q : proc unit) (k : proc A) :
    within C L E q → within C L E k → within C L E (Spawn q k).

(** The same of one observation. *)
Definition obs_within (C : cmd → Prop) (L : logline → Prop) (E : event → Prop)
    (o : obs) : Prop :=
  match o with
  | OIssue c | OSettle c _ => C c
  | OEmit e => E e
  | OLog l => L l
  | OUnhandled _ => True
  end.

(** Request [c] names the key [k] and no other. *)
Definition about (k : string) (c : cmd) : Prop :=
  match c with
  | SqlSelectValue k' | SqlUpsert k' _ | SqlDelete k'
  | RedisGet k' | RedisSet k' _ | RedisExpire k' _ => k' = k
  | RedisDel ks => ks = [k]
  | SqlSelectKeys | RedisKeys _ | RedisFlushAll => False
  end.

(** Request [c] can change the table. *)
Definition writes_table (c : cmd) : bool :=
  match c with
  | SqlUpsert _ _ | SqlDelete _ => true
  | _ => false
  end.

(** Request [c] can change the cache. *)
Definition writes_cache (c : cmd) : bool :=
  match c with
  | RedisSet _ _ | RedisExpire _ _ | RedisDel _ | RedisFlushAll => true
  | _ => false
  end.

(** A line the logger gets when [debug] is off. *)
Definition is_error_line (l : logline) : Prop :=
  match l with
  | LogError _ => True
  | _ => False
  end.

Definition any_line (l : logline) : Prop := True.
Definition any_event (e : event) : Prop := True.
Definition any_cmd (c : cmd) : Prop := True.

(** The requests one tier gets. *)
Definition on_tier (t : tier) (c : cmd) : Prop := cmd_tier c = t.

(** ** More scenarios *)

(** A cache that is down: every Redis request fails. *)
Definition redis_down : cmd → bool :=
  λ c, bool_decide (cmd_tier c = REDIS).

(** An instance with [debug] on and both timers configured. *)
Definition verbose : Database :=
  {| redisAutoFlushInterval := Some 60000;
     redisAutoTempFlushInterval := Some 5000;
     debug := true;
     sqlTable := "kv";
     sqlURI := "mysql://localhost";
     defaultExpire := 400;
     client := "redis://localhost" |}.


(** * Properties *)

(** ** The event loop *)

Section EventLoop.
Context {A : Type}.
Implicit Types (st : state A) (s : list nat) (n : nat).

Lemma run_nil st : run [] st = st.
Proof. reflexivity. Qed.

Lemma run_cons n s st : run (n :: s) st = run s (step n st).
Proof. reflexivity. Qed.

Lemma run_app s1 s2 st : run (s1 ++ s2) st = run s2 (run s1 st).
Proof. apply foldl_app. Qed.

Lemma step_quiescent n st : quiescent st → step n st = st.
Proof. unfold quiescent, step. by intros ->. Qed.

(** Once nothing is pending the loop idles. *)
Lemma run_quiescent s st : quiescent st → run s st = st.
Proof.
  induction s as [|n s IH]; intros Hq; [done|].
  by rewrite run_cons, step_quiescent, IH.
Qed.

Lemma pick_one {X : Type} n (x : X) : pick n [x] = Some (x, []).
Proof. by destruct n. Qed.

Lemma pick_two {X : Type} n (x y : X) :
  pick n [x; y] = Some (x, [y]) ∨ pick n [x; y] = Some (y, [x]).
Proof. destruct n as [|[|n]]; auto. Qed.

Lemma pick_Forall {X : Type} (P : X → Prop) n (l : list X) x rest :
  Forall P l → pick n l = Some (x, rest) → P x ∧ Forall P rest.
Proof.
  intros Hall. unfold pick.
  destruct (l !! n) as [y|] eqn:Hn.
  - intros [= <- <-]. split.
    + by eapply Forall_lookup_1.
    + by apply Forall_delete.
  - destruct l as [|y l]; [done|]. intros [= <- <-].
    by apply Forall_cons_1.
Qed.

(** The trace only grows. *)
Lemma resume_fg_trace st p : st_trace st `prefix_of` st_trace (resume_fg st p).
Proof. unfold resume_fg. destruct (advance p) as [[o bg] r]. by eexists. Qed.

Lemma resume_bg_trace st p : st_trace st `prefix_of` st_trace (resume_bg st p).
Proof. unfold resume_bg. destruct (advance p) as [[o bg] r]. by eexists. Qed.

Lemma step_trace n st : st_trace st `prefix_of` st_trace (step n st).
Proof.
  unfold step. destruct (pick n (st_pending st)) as [[[c t] rest]|]; [|done].
  destruct (exec c (st_world st)) as [r w'].
  etrans; [|destruct t; [apply resume_fg_trace|apply resume_bg_trace]].
  by eexists.
Qed.

Lemma run_trace s st : st_trace st `prefix_of` st_trace (run s st).
Proof.
  revert st. induction s as [|n s IH]; intros st; [done|].
  rewrite run_cons. etrans; [apply step_trace|apply IH].
Qed.

(** Orphans cannot change how the observed call ended. *)
Lemma bg_pending_is_bg (l : list orphan) : Forall (@is_bg A) (bg_pending l).
Proof. unfold bg_pending. apply Forall_fmap, Forall_true. by intros []. Qed.

Lemma step_orphans n st :
  Forall is_bg (st_pending st) →
  Forall is_bg (st_pending (step n st)) ∧ st_outcome (step n st) = st_outcome st.
Proof.
  intros Hall. unfold step.
  destruct (pick n (st_pending st)) as [[[c t] rest]|] eqn:Hp; [|done].
  destruct (pick_Forall _ _ _ _ _ Hall Hp) as [Ht Hrest].
  destruct (exec c (st_world st)) as [r w'].
  destruct t as [k|k]; [done|].
  unfold resume_bg. destruct (advance (k r)) as [[o bg] q]. simpl. split; [|done].
  rewrite !Forall_app. auto using bg_pending_is_bg.
Qed.

Lemma run_orphans s st :
  Forall is_bg (st_pending st) → st_outcome (run s st) = st_outcome st.
Proof.
  revert st. induction s as [|n s IH]; intros st Hall; [done|].
  rewrite run_cons. destruct (step_orphans n st Hall) as [Hall' <-]. by apply IH.
Qed.

End EventLoop.

#[global] Opaque run.

(** One turn of the loop in a goal about [run (n :: s) st]: choose the
    request, let its server handle it, run the waiting body on. *)
Ltac pick_next :=
  match goal with
  | |- context [pick ?n [?x]] => rewrite (pick_one n x)
  | |- context [pick ?n [?x; ?y]] =>
      let H := fresh "Hpick" in
      destruct (pick_two n x y) as [H|H]; rewrite H; clear H
  end.

Ltac use_faults :=
  repeat match goal with
         | H : w_fault ?w ?c = _ |- context [w_fault ?w ?c] => rewrite H
         end.

Ltac turn :=
  match goal with
  | |- context [run (?n :: ?s) ?st] => rewrite (run_cons n s st)
  end;
  unfold step; cbn [st_pending]; pick_next; unfold exec; cbn; use_faults; cbn.

(** A schedule of at least [n] turns, taken apart. *)
Ltac schedule s H :=
  repeat (destruct s as [|? s]; [simpl in H; lia|]); clear H.

Lemma truthy_num_pos (n : Z) : 0 < n → truthy_num n = true.
Proof. unfold truthy_num. intros H. destruct (Z.eqb_spec n 0); [lia|done]. Qed.

Lemma not_expired (n : Z) : 0 < n → (n <=? 0) = false.
Proof. lia. Qed.

Ltac tidy :=
  rewrite ?lookup_insert_eq, ?truthy_num_pos, ?not_expired by (assumption || lia); cbn.

Ltac turns := repeat (turn; tidy).

Ltac in_trace := repeat first [apply list_elem_of_here | apply list_elem_of_further].

(** ** The write path *)

(** Where [set] ends up when the cache requests succeed: every order in
    which the servers answer leads to the same stores.  The durable write
    may have failed; the cache is written all the same. *)
Lemma set_settles this k v w s :
  w_fault w (RedisSet k v) = false →
  w_fault w (RedisExpire k (defaultExpire this)) = false →
  0 < defaultExpire this →
  (3 ≤ length s)%nat →
  ∃ tr,
    run s (start w (Keystore.set this k v)) =
    State (World (if w_fault w (SqlUpsert k v) then w_sql w else <[k := v]> (w_sql w))
                 (<[k := (v, Some (defaultExpire this))]> (w_redis w))
                 (w_fault w))
          tr [] (Some (Resolved tt)) ∧
    (if w_fault w (SqlUpsert k v)
     then OUnhandled "request failed" ∈ tr
     else OEmit (EvSet k v SQL) ∈ tr).
Proof.
  intros Hr He Hpos Hlen. schedule s Hlen.
  destruct (w_fault w (SqlUpsert k v)) eqn:Hs;
    destruct this as [a b [|] t u ttl cl]; cbn in *; tidy.
  all: turns.
  all: rewrite run_quiescent by done; rewrite insert_insert_eq.
  all: eexists; split; [reflexivity|in_trace].
Qed.

(** ** The read path *)

(** A cache hit: one turn, and the call resolves with the key. *)
Lemma get_hit this k v ttl w s :
  w_redis w !! k = Some (v, ttl) →
  truthy_str v = true →
  w_fault w (RedisGet k) = false →
  (1 ≤ length s)%nat →
  ∃ tr, run s (start w (Keystore.get this k)) = State w tr [] (Some (Resolved (Some k))).
Proof.
  intros Hk Hv Hf Hlen. schedule s Hlen.
  destruct this as [a b [|] t u e cl]; cbn in *.
  all: turn; rewrite Hk; cbn; rewrite Hv; cbn.
  all: rewrite run_quiescent by done; eexists; reflexivity.
Qed.

(** A cache miss served by the table: the value comes back and the cache
    ends up holding it with the default expiry. *)
Lemma get_read_through this k v w s :
  w_redis w !! k = None →
  w_sql w !! k = Some v →
  truthy_str v = true →
  w_fault w (RedisGet k) = false →
  w_fault w (SqlSelectValue k) = false →
  w_fault w (RedisSet k v) = false →
  w_fault w (RedisExpire k (defaultExpire this)) = false →
  0 < defaultExpire this →
  (4 ≤ length s)%nat →
  ∃ tr,
    run s (start w (Keystore.get this k)) =
    State (World (w_sql w) (<[k := (v, Some (defaultExpire this))]> (w_redis w)) (w_fault w))
          tr [] (Some (Resolved (Some v))).
Proof.
  intros Hk Hq Hv Hg Hs Hr He Hpos Hlen. schedule s Hlen.
  destruct this as [a b [|] t u e cl]; cbn in *.
  all: turn; rewrite Hk; cbn.
  all: turn; rewrite Hq; cbn; rewrite Hv; cbn; tidy.
  all: turns.
  all: rewrite run_quiescent by done; rewrite insert_insert_eq; eexists; reflexivity.
Qed.

Lemma truthy_str_nonempty (s : string) : s ≠ "" → truthy_str s = true.
Proof. by destruct s. Qed.

(** After a write whose cache requests succeeded and a flush of the whole
    cache, the value is served from the table, provided the durable write
    succeeded and the value is not the empty string. *)
Lemma set_clear_get this k v w s1 s2 :
  v ≠ "" →
  w_fault w (SqlUpsert k v) = false →
  w_fault w (RedisSet k v) = false →
  w_fault w (RedisExpire k (defaultExpire this)) = false →
  w_fault w (RedisGet k) = false →
  w_fault w (SqlSelectValue k) = false →
  0 < defaultExpire this →
  (3 ≤ length s1)%nat →
  (4 ≤ length s2)%nat →
  outcome_of s2 (with_redis (world_after s1 w (Keystore.set this k v)) ∅)
    (Keystore.get this k) = Some (Resolved (Some v)).
Proof.
  intros Hv Hu Hr He Hg Hq Hpos H1 H2. unfold outcome_of, world_after.
  destruct (set_settles this k v w s1 Hr He Hpos H1) as (tr & -> & _).
  rewrite Hu. cbn.
  destruct (get_read_through this k v
              (with_redis (World (<[k := v]> (w_sql w))
                                 (<[k := (v, Some (defaultExpire this))]> (w_redis w))
                                 (w_fault w)) ∅) s2) as [tr' ->];
    cbn; try done.
  - apply lookup_insert_eq.
  - by apply truthy_str_nonempty.
Qed.

(** An empty value written through [set] is never read back: both tiers
    hold it and [get] answers [null]. *)
Example set_get_empty_value :
  outcome_of [0; 0]%nat
    (world_after [0; 0; 0]%nat (World ∅ ∅ no_fault) (Keystore.set plain "x" ""))
    (Keystore.get plain "x") = Some (Resolved None).
Proof. vm_compute. reflexivity. Qed.

(** ** Claims about the read and write paths *)

(** C1 (defect in the code).  The claim asks that a cache hit returns the
    cached value.  The code returns the lookup key instead: whenever the
    cache holds a non-empty value for [k] and answers, [get k] resolves
    with [k], whatever the value is. *)
Theorem get_hit_echoes_key this k v ttl w s :
  w_redis w !! k = Some (v, ttl) →
  v ≠ "" →
  w_fault w (RedisGet k) = false →
  (1 ≤ length s)%nat →
  outcome_of s w (Keystore.get this k) = Some (Resolved (Some k)).
Proof.
  intros Hk Hv Hf Hlen. unfold outcome_of.
  destruct (get_hit this k v ttl w s) as [tr ->]; auto using truthy_str_nonempty.
Qed.

(** The failing input of C1: the cache holds "1" under "a" and [get "a"]
    answers "a". *)
Lemma get_hit_echoes_key_witness :
  outcome_of [0%nat] (World ∅ {[ "a" := ("1", None) ]} no_fault)
    (Keystore.get plain "a") = Some (Resolved (Some "a")).
Proof.
  apply (get_hit_echoes_key plain "a" "1" None).
  - vm_compute. reflexivity.
  - discriminate.
  - reflexivity.
  - simpl. lia.
Defined.

(** C2 (defect in the code, the one of C1).  The claim asks that [get k]
    after a successful [set k v] returns [v].  While the cache still holds
    the entry the code returns the key: after [set k v] has settled,
    [get k] resolves with [k]. *)
Theorem set_then_get_echoes_key this k v w s1 s2 :
  v ≠ "" →
  w_fault w (RedisSet k v) = false →
  w_fault w (RedisExpire k (defaultExpire this)) = false →
  w_fault w (RedisGet k) = false →
  0 < defaultExpire this →
  (3 ≤ length s1)%nat →
  (1 ≤ length s2)%nat →
  outcome_of s2 (world_after s1 w (Keystore.set this k v)) (Keystore.get this k)
  = Some (Resolved (Some k)).
Proof.
  intros Hv Hr He Hg Hpos H1 H2. unfold outcome_of, world_after.
  destruct (set_settles this k v w s1 Hr He Hpos H1) as (tr & -> & _). cbn.
  destruct (get_hit this k v (Some (defaultExpire this))
              (World (if w_fault w (SqlUpsert k v) then w_sql w else <[k := v]> (w_sql w))
                     (<[k := (v, Some (defaultExpire this))]> (w_redis w))
                     (w_fault w)) s2) as [tr' ->];
    cbn; try done.
  - apply lookup_insert_eq.
  - by apply truthy_str_nonempty.
Qed.

(** The failing input of C2: [set "x" "1"] then [get "x"] answers "x". *)
Lemma set_then_get_echoes_key_witness :
  outcome_of [0%nat]
    (world_after [0; 0; 0]%nat (World ∅ ∅ no_fault) (Keystore.set plain "x" "1"))
    (Keystore.get plain "x") = Some (Resolved (Some "x")).
Proof.
  apply (set_then_get_echoes_key plain "x" "1" (World ∅ ∅ no_fault)).
  - discriminate.
  - reflexivity.
  - reflexivity.
  - reflexivity.
  - reflexivity.
  - simpl. lia.
  - simpl. lia.
Defined.

(** C3, as stated, fails: the durable write of [set "k" "v"] is rejected,
    the table stays empty, and the cache ends up holding "v". *)
Lemma set_caches_unpersisted_value :
  w_fault (World ∅ ∅ (fails_on (SqlUpsert "k" "v"))) (SqlUpsert "k" "v") = true ∧
  w_sql (world_after [0; 0; 0]%nat (World ∅ ∅ (fails_on (SqlUpsert "k" "v")))
           (Keystore.set plain "k" "v")) !! "k" = None ∧
  w_redis (world_after [0; 0; 0]%nat (World ∅ ∅ (fails_on (SqlUpsert "k" "v")))
             (Keystore.set plain "k" "v")) !! "k" = Some ("v", Some 3600).
Proof. split; [|split]; vm_compute; reflexivity. Qed.

(** C3 (amended).  [set] sends the cache write without waiting for the
    durable write: when the durable write fails and the cache requests
    succeed, the call still resolves, the failure surfaces only as an
    unhandled rejection, the table is unchanged and the cache holds the new
    value with the default expiry. *)
Theorem set_writes_cache_regardless this k v w s :
  w_fault w (SqlUpsert k v) = true →
  w_fault w (RedisSet k v) = false →
  w_fault w (RedisExpire k (defaultExpire this)) = false →
  0 < defaultExpire this →
  (3 ≤ length s)%nat →
  outcome_of s w (Keystore.set this k v) = Some (Resolved tt) ∧
  OUnhandled "request failed" ∈ trace_of s w (Keystore.set this k v) ∧
  w_sql (world_after s w (Keystore.set this k v)) = w_sql w ∧
  w_redis (world_after s w (Keystore.set this k v)) !! k
  = Some (v, Some (defaultExpire this)).
Proof.
  intros Hu Hr He Hpos Hlen. unfold outcome_of, trace_of, world_after.
  destruct (set_settles this k v w s Hr He Hpos Hlen) as (tr & -> & Htr).
  rewrite Hu in *. cbn. by rewrite lookup_insert_eq.
Qed.

Lemma set_writes_cache_regardless_witness :
  w_redis (world_after [0; 0; 0]%nat (World ∅ ∅ (fails_on (SqlUpsert "k" "v")))
             (Keystore.set plain "k" "v")) !! "k" = Some ("v", Some 3600).
Proof.
  apply (set_writes_cache_regardless plain "k" "v"
           (World ∅ ∅ (fails_on (SqlUpsert "k" "v"))) [0; 0; 0]%nat).
  - reflexivity.
  - reflexivity.
  - reflexivity.
  - reflexivity.
  - simpl. lia.
Defined.

(** C7, as stated, fails for the empty value: the table holds "" under
    "k", the cache is empty, and [get "k"] answers [null] and leaves the
    cache empty. *)
Lemma get_drops_empty_value :
  w_sql (World {[ "k" := "" ]} ∅ no_fault) !! "k" = Some "" ∧
  w_redis (World {[ "k" := "" ]} ∅ no_fault) !! "k" = None ∧
  outcome_of [0; 0; 0; 0]%nat (World {[ "k" := "" ]} ∅ no_fault)
    (Keystore.get plain "k") = Some (Resolved None) ∧
  w_redis (world_after [0; 0; 0; 0]%nat (World {[ "k" := "" ]} ∅ no_fault)
             (Keystore.get plain "k")) !! "k" = None.
Proof. split; [|split; [|split]]; vm_compute; reflexivity. Qed.

(** What the constructor leaves in [defaultExpire]. *)
Lemma constructor_defaultExpire r u cfg this :
  constructor r u cfg = inr this → defaultExpire this = expire_or_default cfg.
Proof.
  unfold constructor, if_truthy.
  destruct r as [r|]; [|done]. destruct (truthy_str r); [|done].
  destruct u as [u|]; [|done]. destruct (truthy_str u); [|done].
  by intros [= <-].
Qed.

(** C7 (amended).  When the cache has no entry for [k], the table holds a
    non-empty [v], the requests succeed and the default expiry is positive,
    [get k] resolves with [v] and the cache ends up holding [v] under [k]
    with the default expiry; that expiry is 3600 seconds for an instance
    constructed without [defaultExpire]. *)
Theorem get_repopulates this k v w s :
  w_redis w !! k = None →
  w_sql w !! k = Some v →
  v ≠ "" →
  w_fault w (RedisGet k) = false →
  w_fault w (SqlSelectValue k) = false →
  w_fault w (RedisSet k v) = false →
  w_fault w (RedisExpire k (defaultExpire this)) = false →
  0 < defaultExpire this →
  (4 ≤ length s)%nat →
  outcome_of s w (Keystore.get this k) = Some (Resolved (Some v)) ∧
  w_redis (world_after s w (Keystore.get this k)) !! k
  = Some (v, Some (defaultExpire this)) ∧
  (∀ r u cfg, constructor r u cfg = inr this →
              opt_field cfg Config.defaultExpire = None →
              defaultExpire this = 3600).
Proof.
  intros Hk Hq Hv Hg Hs Hr He Hpos Hlen. unfold outcome_of, world_after.
  destruct (get_read_through this k v w s) as [tr ->];
    auto using truthy_str_nonempty.
  cbn. rewrite lookup_insert_eq. repeat split.
  intros r u cfg Hc Hcfg. rewrite (constructor_defaultExpire _ _ _ _ Hc).
  unfold expire_or_default. by rewrite Hcfg.
Qed.

Lemma get_repopulates_witness :
  outcome_of [0; 0; 0; 0]%nat (World {[ "k" := "v" ]} ∅ no_fault)
    (Keystore.get plain "k") = Some (Resolved (Some "v")) ∧
  w_redis (world_after [0; 0; 0; 0]%nat (World {[ "k" := "v" ]} ∅ no_fault)
             (Keystore.get plain "k")) !! "k" = Some ("v", Some 3600).
Proof.
  destruct (get_repopulates plain "k" "v" (World {[ "k" := "v" ]} ∅ no_fault)
              [0; 0; 0; 0]%nat) as (Ho & Hc & _).
  - reflexivity.
  - vm_compute. reflexivity.
  - discriminate.
  - reflexivity.
  - reflexivity.
  - reflexivity.
  - reflexivity.
  - reflexivity.
  - simpl. lia.
  - split; [exact Ho|exact Hc].
Defined.

(** ** Claims about the configuration *)

Lemma truthy_opt_spec (o : option string) :
  truthy_opt o = false ↔ o = None ∨ o = Some "".
Proof.
  destruct o as [[|c s]|]; cbn; split; auto; intros H; try done.
  by destruct H.
Qed.

Lemma constructor_throws_iff r u cfg :
  (∃ msg, constructor r u cfg = inl msg) ↔ truthy_opt r = false ∨ truthy_opt u = false.
Proof.
  unfold constructor, if_truthy.
  destruct r as [[|c r]|], u as [[|d u]|]; cbn; split; eauto.
  all: intros H; destruct H; done.
Qed.

(** An address passed as the empty string is no address: the guards are
    [!redisURI] and [!sqlURI], and the constructor answers it with the
    same "No ... URI found!" error as a missing one. *)
Example constructor_rejects_empty_uri :
  constructor (Some "") (Some "mysql://localhost") None
  = inl "Keystore Error: No REDIS URI found!".
Proof. reflexivity. Qed.

(** C6.  The constructor throws exactly when [redisURI] or [sqlURI] is
    absent, that is missing or the empty string, and in no other case;
    the Redis address is checked first. *)
Theorem constructor_throws_on_missing_uri r u cfg :
  ((∃ msg, constructor r u cfg = inl msg) ↔
   (r = None ∨ r = Some "") ∨ (u = None ∨ u = Some "")) ∧
  (r = None ∨ r = Some "" →
   constructor r u cfg = inl "Keystore Error: No REDIS URI found!").
Proof.
  split.
  - rewrite constructor_throws_iff. by rewrite !truthy_opt_spec.
  - intros H. apply truthy_opt_spec in H. unfold constructor, if_truthy.
    destruct r as [r|]; [|done]. cbn in H. by rewrite H.
Qed.

Lemma constructor_throws_on_missing_uri_witness :
  constructor None (Some "mysql://localhost") None
  = inl "Keystore Error: No REDIS URI found!" ∧
  (∃ msg, constructor (Some "redis://localhost") None None = inl msg).
Proof.
  split.
  - refine (proj2 (constructor_throws_on_missing_uri None (Some "mysql://localhost")
                     None) _).
    left. reflexivity.
  - refine (proj2 (proj1 (constructor_throws_on_missing_uri (Some "redis://localhost")
                            None None)) _).
    right. left. reflexivity.
Defined.

(** C10.  An instance constructed with [defaultExpire: 0] has a default
    expiry of 3600 seconds, and that is the expiry the cache entry carries
    after a write-through [set] and after a read-through [get]. *)
Theorem zero_expire_is_default r u cfg this :
  constructor r u (Some cfg) = inr this →
  Config.defaultExpire cfg = Some 0 →
  defaultExpire this = 3600 ∧
  (∀ k v w s,
     w_fault w (RedisSet k v) = false →
     w_fault w (RedisExpire k 3600) = false →
     (3 ≤ length s)%nat →
     w_redis (world_after s w (Keystore.set this k v)) !! k = Some (v, Some 3600)) ∧
  (∀ k v w s,
     w_redis w !! k = None →
     w_sql w !! k = Some v →
     v ≠ "" →
     w_fault w (RedisGet k) = false →
     w_fault w (SqlSelectValue k) = false →
     w_fault w (RedisSet k v) = false →
     w_fault w (RedisExpire k 3600) = false →
     (4 ≤ length s)%nat →
     w_redis (world_after s w (Keystore.get this k)) !! k = Some (v, Some 3600)).
Proof.
  intros Hc Hcfg.
  assert (defaultExpire this = 3600) as Hd.
  { rewrite (constructor_defaultExpire _ _ _ _ Hc).
    unfold expire_or_default. cbn. by rewrite Hcfg. }
  split; [done|]. unfold world_after. split.
  - intros k v w s Hr He Hlen.
    destruct (set_settles this k v w s) as (tr & -> & _); rewrite ?Hd; try done.
    cbn. apply lookup_insert_eq.
  - intros k v w s Hk Hq Hv Hg Hs Hr He Hlen.
    destruct (get_read_through this k v w s) as [tr ->];
      rewrite ?Hd; auto using truthy_str_nonempty; try done.
    cbn. apply lookup_insert_eq.
Qed.

Lemma zero_expire_is_default_witness :
  constructor (Some "redis://localhost") (Some "mysql://localhost")
    (Some (Config.Make None None None None (Some 0))) = inr plain ∧
  defaultExpire plain = 3600 ∧
  w_redis (world_after [0; 0; 0]%nat (World ∅ ∅ no_fault)
             (Keystore.set plain "k" "v")) !! "k" = Some ("v", Some 3600).
Proof.
  pose proof (zero_expire_is_default (Some "redis://localhost")
                (Some "mysql://localhost")
                (Config.Make None None None None (Some 0)) plain) as H.
  destruct H as (Hd & Hset & _).
  - reflexivity.
  - reflexivity.
  - split; [reflexivity|]. split; [exact Hd|].
    apply (Hset "k" "v" (World ∅ ∅ no_fault) [0; 0; 0]%nat).
    + reflexivity.
    + reflexivity.
    + simpl. lia.
Defined.

(** ** Claims about ordering *)

Lemma position_lt P t i : position P t = Some i → (i < length t)%nat.
Proof.
  revert i. induction t as [|o t IH]; intros i; cbn; [done|].
  destruct (P o).
  - intros [= <-]. lia.
  - destruct (position P t) as [j|]; [|done]. intros [= <-].
    specialize (IH j eq_refl). lia.
Qed.

Lemma position_app_Some P t1 t2 i :
  position P t1 = Some i → position P (t1 ++ t2) = Some i.
Proof.
  revert i. induction t1 as [|o t1 IH]; intros i; cbn; [done|].
  destruct (P o); [done|].
  destruct (position P t1) as [j|]; [|done]. intros [= <-].
  by rewrite (IH j).
Qed.

Lemma position_app_None P t1 t2 i :
  position P t1 = None → position P (t1 ++ t2) = Some i → (length t1 ≤ i)%nat.
Proof.
  revert i. induction t1 as [|o t1 IH]; intros i; cbn; [lia|].
  destruct (P o); [done|].
  destruct (position P t1) as [j|]; [done|]. intros _.
  destruct (position P (t1 ++ t2)) as [j|] eqn:Hj; [|done]. intros [= <-].
  specialize (IH j eq_refl eq_refl). lia.
Qed.

(** What happened within a prefix of the trace stays in that order. *)
Lemma earlier_prefix P Q t1 t i j :
  t1 `prefix_of` t →
  position P t1 = Some i → position Q t1 = Some j →
  earlier P Q t = bool_decide (i < j)%nat.
Proof.
  intros [t2 ->] Hi Hj. unfold earlier.
  by rewrite (position_app_Some _ _ _ _ Hi), (position_app_Some _ _ _ _ Hj).
Qed.

(** What has not happened within a prefix comes after all of it. *)
Lemma not_earlier_prefix P Q t1 t j :
  t1 `prefix_of` t →
  position P t1 = None → position Q t1 = Some j →
  earlier P Q t = false.
Proof.
  intros [t2 ->] Hi Hj. unfold earlier.
  rewrite (position_app_Some _ _ _ _ Hj).
  destruct (position P (t1 ++ t2)) as [i|] eqn:Hp; [|done].
  apply position_app_None in Hp; [|done]. apply position_lt in Hj.
  apply bool_decide_eq_false. lia.
Qed.

(** Find an observation in an explicit stretch of trace. *)
Ltac locate :=
  cbn; repeat (case_bool_decide; simplify_eq; cbn); reflexivity.

(** C4, as stated, fails: in a run of [set "k" "v"] (and of [delete "k"])
    the cache request is sent before the durable request has been
    handled; and when the cache answers first, the cache holds "v" while
    the table does not. *)
Lemma cache_write_sent_before_sql_settles :
  trace_of [0; 0; 0]%nat (World ∅ ∅ no_fault) (Keystore.set plain "k" "v")
  = [ OIssue (SqlUpsert "k" "v");
      OIssue (RedisSet "k" "v");
      OSettle (SqlUpsert "k" "v") (Fulfilled (Status "OK"));
      OEmit (EvSet "k" "v" SQL);
      OSettle (RedisSet "k" "v") (Fulfilled (Status "OK"));
      OEmit (EvSet "k" "v" REDIS);
      OIssue (RedisExpire "k" 3600);
      OSettle (RedisExpire "k" 3600) (Fulfilled (Count 1)) ] ∧
  settled_before_issued (SqlUpsert "k" "v") (RedisSet "k" "v")
    (trace_of [0; 0; 0]%nat (World ∅ ∅ no_fault) (Keystore.set plain "k" "v")) = false ∧
  settled_before_issued (SqlDelete "k") (RedisDel ["k"])
    (trace_of [0; 0]%nat (World ∅ ∅ no_fault) (Keystore.delete plain "k")) = false ∧
  w_redis (world_after [1%nat] (World ∅ ∅ no_fault) (Keystore.set plain "k" "v")) !! "k"
  = Some ("v", None) ∧
  w_sql (world_after [1%nat] (World ∅ ∅ no_fault) (Keystore.set plain "k" "v")) !! "k"
  = None.
Proof. split; [|split; [|split; [|split]]]; vm_compute; reflexivity. Qed.

(** C4 (amended).  Within one [set] or [delete] call the durable request
    is sent before the cache request, and neither is awaited: the call
    resolves before any server has handled a request, and in every run the
    cache request is sent before the durable request is handled. *)
Theorem writes_are_dispatched_not_awaited this k v w s :
  (outcome_of [] w (Keystore.set this k v) = Some (Resolved tt) ∧
   world_after [] w (Keystore.set this k v) = w ∧
   issued_before_issued (SqlUpsert k v) (RedisSet k v)
     (trace_of s w (Keystore.set this k v)) = true ∧
   settled_before_issued (SqlUpsert k v) (RedisSet k v)
     (trace_of s w (Keystore.set this k v)) = false) ∧
  (outcome_of [] w (Keystore.delete this k) = Some (Resolved tt) ∧
   world_after [] w (Keystore.delete this k) = w ∧
   issued_before_issued (SqlDelete k) (RedisDel [k])
     (trace_of s w (Keystore.delete this k)) = true ∧
   settled_before_issued (SqlDelete k) (RedisDel [k])
     (trace_of s w (Keystore.delete this k)) = false).
Proof.
  unfold outcome_of, world_after, trace_of,
    issued_before_issued, settled_before_issued.
  rewrite !run_nil.
  pose proof (run_trace s (start w (Keystore.set this k v))) as Hset.
  pose proof (run_trace s (start w (Keystore.delete this k))) as Hdel.
  destruct this as [a b [|] t u ttl cl]; cbn in Hset, Hdel.
  all: repeat split.
  all: first
    [ reflexivity
    | erewrite earlier_prefix; [|eassumption|locate|locate]; reflexivity
    | erewrite not_earlier_prefix; [|eassumption|locate|locate]; reflexivity ].
Qed.

(** ** Claims about errors *)

(** [set] and [delete] resolve at once, and nothing that happens later can
    change that. *)
Lemma set_always_resolves this k v w s :
  outcome_of s w (Keystore.set this k v) = Some (Resolved tt).
Proof.
  unfold outcome_of. rewrite run_orphans; destruct this as [a b [|] t u e cl]; cbn; try done.
  all: repeat constructor.
Qed.

Lemma delete_always_resolves this k w s :
  outcome_of s w (Keystore.delete this k) = Some (Resolved tt).
Proof.
  unfold outcome_of. rewrite run_orphans; destruct this as [a b [|] t u e cl]; cbn; try done.
  all: repeat constructor.
Qed.

(** The cache adapter catches a failed [GET] or [SET]. *)
Lemma redis_get_absorbs this k w s :
  w_fault w (RedisGet k) = true →
  (1 ≤ length s)%nat →
  outcome_of s w (Redis.get this k) = Some (Resolved None) ∧
  OLog (LogError "request failed") ∈ trace_of s w (Redis.get this k).
Proof.
  intros Hf Hlen. unfold outcome_of, trace_of. schedule s Hlen.
  destruct this as [a b [|] t u e cl]; cbn.
  all: turn; rewrite run_quiescent by done; cbn; split; [done|in_trace].
Qed.

Lemma redis_set_absorbs this k v expire w s :
  w_fault w (RedisSet k v) = true →
  (1 ≤ length s)%nat →
  outcome_of s w (Redis.set this k v expire) = Some (Resolved false) ∧
  OLog (LogError "request failed") ∈ trace_of s w (Redis.set this k v expire).
Proof.
  intros Hf Hlen. unfold outcome_of, trace_of. schedule s Hlen.
  destruct this as [a b [|] t u e cl]; cbn.
  all: turn; rewrite run_quiescent by done; cbn; split; [done|in_trace].
Qed.

(** The only way [get] can reject is a failed select. *)
Lemma get_rejects_only_on_sql_failure this k w s e :
  w_fault w (SqlSelectValue k) = false →
  outcome_of s w (Keystore.get this k) ≠ Some (Threw e).
Proof.
  intros Hq. unfold outcome_of.
  destruct (w_fault w (RedisGet k)) eqn:Hg;
    destruct (w_redis w !! k) as [[[|c v] ttl]|] eqn:Hk;
    destruct (w_sql w !! k) as [[|d v']|] eqn:Hs;
    destruct this as [a b [|] t u x cl];
    destruct s as [|n1 [|n2 s]]; try done.
  all: cbn; turn; rewrite ?Hk; cbn.
  all: try (rewrite run_quiescent by done; done).
  all: try (rewrite run_nil; done).
  all: turn; rewrite ?Hs; cbn.
  all: rewrite run_orphans by (cbn; repeat constructor); done.
Qed.

(** On a cache miss, or a failed cache read, a failed select rejects [get]. *)
Lemma get_rejects_on_sql_failure this k w s :
  w_fault w (SqlSelectValue k) = true →
  w_fault w (RedisGet k) = true ∨ truthy_opt (fst <$> w_redis w !! k) = false →
  (2 ≤ length s)%nat →
  outcome_of s w (Keystore.get this k) = Some (Threw "request failed").
Proof.
  intros Hq Hmiss Hlen. unfold outcome_of. schedule s Hlen.
  destruct (w_fault w (RedisGet k)) eqn:Hg;
    destruct this as [a b [|] t u x cl]; cbn.
  all: turn; try (destruct Hmiss as [?|Hmiss]; [done|]; rewrite Hmiss); cbn.
  all: turn; by rewrite run_quiescent.
Qed.

(** A failed request inside [delete] is caught by nobody. *)
Lemma delete_failure_unhandled this k w s :
  w_fault w (SqlDelete k) = true ∨ w_fault w (RedisDel [k]) = true →
  (2 ≤ length s)%nat →
  OUnhandled "request failed" ∈ trace_of s w (Keystore.delete this k).
Proof.
  intros Hf Hlen. unfold trace_of. schedule s Hlen.
  destruct (w_fault w (SqlDelete k)) eqn:Hs, (w_fault w (RedisDel [k])) eqn:Hr;
    try (by destruct Hf); clear Hf;
    destruct this as [a b [|] t u x cl]; cbn.
  all: turns; rewrite run_quiescent by done; cbn; in_trace.
Qed.

(** C5, as stated, fails: the cache is empty, the select is rejected, and
    the rejection reaches the caller of [get]. *)
Lemma get_propagates_sql_error :
  w_fault (World ∅ ∅ (fails_on (SqlSelectValue "k"))) (SqlSelectValue "k") = true ∧
  outcome_of [0; 0]%nat (World ∅ ∅ (fails_on (SqlSelectValue "k")))
    (Keystore.get plain "k") = Some (Threw "request failed").
Proof. split; vm_compute; reflexivity. Qed.

(** C5 (amended).  A failed cache [GET] or [SET] is caught in the adapter,
    logged, and turned into [null] or [false]; [set] and [delete] never
    reject towards their caller, a request that fails inside [delete] ends
    as an unhandled rejection; a failed select is not caught: it is the one
    way [get] can reject, and on a cache miss it does reject. *)
Theorem cache_errors_absorbed_sql_errors_escape this k v expire w s :
  outcome_of s w (Keystore.set this k v) = Some (Resolved tt) ∧
  outcome_of s w (Keystore.delete this k) = Some (Resolved tt) ∧
  (w_fault w (SqlDelete k) = true ∨ w_fault w (RedisDel [k]) = true →
   (2 ≤ length s)%nat →
   OUnhandled "request failed" ∈ trace_of s w (Keystore.delete this k)) ∧
  (w_fault w (RedisGet k) = true → (1 ≤ length s)%nat →
   outcome_of s w (Redis.get this k) = Some (Resolved None) ∧
   OLog (LogError "request failed") ∈ trace_of s w (Redis.get this k)) ∧
  (w_fault w (RedisSet k v) = true → (1 ≤ length s)%nat →
   outcome_of s w (Redis.set this k v expire) = Some (Resolved false) ∧
   OLog (LogError "request failed") ∈ trace_of s w (Redis.set this k v expire)) ∧
  (w_fault w (SqlSelectValue k) = false →
   ∀ e, outcome_of s w (Keystore.get this k) ≠ Some (Threw e)) ∧
  (w_fault w (SqlSelectValue k) = true →
   w_fault w (RedisGet k) = true ∨ truthy_opt (fst <$> w_redis w !! k) = false →
   (2 ≤ length s)%nat →
   outcome_of s w (Keystore.get this k) = Some (Threw "request failed")).
Proof.
  repeat split.
  - apply set_always_resolves.
  - apply delete_always_resolves.
  - apply delete_failure_unhandled.
  - by apply redis_get_absorbs.
  - by apply redis_get_absorbs.
  - by apply redis_set_absorbs.
  - by apply redis_set_absorbs.
  - intros Hq e. by apply get_rejects_only_on_sql_failure.
  - apply get_rejects_on_sql_failure.
Qed.

Lemma cache_errors_absorbed_sql_errors_escape_witness :
  outcome_of [0; 0]%nat (World ∅ ∅ (fails_on (SqlSelectValue "k")))
    (Keystore.get plain "k") = Some (Threw "request failed") ∧
  outcome_of [0%nat] (World ∅ ∅ (fails_on (RedisGet "k")))
    (Redis.get plain "k") = Some (Resolved None).
Proof.
  split.
  - apply (cache_errors_absorbed_sql_errors_escape plain "k" "v" None
             (World ∅ ∅ (fails_on (SqlSelectValue "k"))) [0; 0]%nat).
    + reflexivity.
    + right. reflexivity.
    + simpl. lia.
  - apply (cache_errors_absorbed_sql_errors_escape plain "k" "v" None
             (World ∅ ∅ (fails_on (RedisGet "k"))) [0%nat]).
    + reflexivity.
    + simpl. lia.
Defined.

(** ** Claims about the temporary-key flush *)

Lemma glob_star (s : string) : glob "*" s = true.
Proof. induction s as [|c s IH]; [done|]. cbn in *. exact IH. Qed.

(** The pattern the flush sends selects the keys that start with "temp:". *)
Lemma glob_temp (k : string) : glob "temp:*" k = String.prefix "temp:" k.
Proof.
  do 5 (destruct k as [|c k]; [done|];
        cbn [glob String.prefix]; destruct (ascii_dec _ c) as [<-|Hne];
        [rewrite bool_decide_true by done; cbn [andb]
        |by rewrite bool_decide_false by done]).
  transitivity true; [exact (glob_star k) | by destruct k].
Qed.

Lemma lookup_delete_all {V : Type} (ks : list string) (m : gmap string V) (k : string) :
  delete_all ks m !! k = if decide (k ∈ ks) then None else m !! k.
Proof.
  unfold delete_all. induction ks as [|k' ks IH]; cbn [foldr].
  - destruct (decide (k ∈ [])) as [Hin|_]; [|done]. by apply elem_of_nil in Hin.
  - destruct (decide (k' = k)) as [->|Hne].
    + rewrite lookup_delete_eq.
      destruct (decide (k ∈ k :: ks)) as [_|Hout]; [done|].
      destruct Hout. apply list_elem_of_here.
    + rewrite lookup_delete_ne by done. rewrite IH.
      destruct (decide (k ∈ ks)) as [Hin|Hout], (decide (k ∈ k' :: ks)) as [Hin'|Hout'];
        try done.
      * destruct Hout'. by apply list_elem_of_further.
      * apply elem_of_cons in Hin' as [->|Hin']; done.
Qed.

Lemma elem_of_map_keys {V : Type} (m : gmap string V) (k : string) :
  k ∈ map_keys m ↔ is_Some (m !! k).
Proof.
  unfold map_keys. rewrite list_elem_of_fmap. split.
  - intros [[k' v] [-> Hin]]. apply elem_of_map_to_list in Hin. by exists v.
  - intros [v Hv]. exists (k, v). split; [done|]. by apply elem_of_map_to_list.
Qed.

#[local] Arguments glob : simpl never.
#[local] Arguments map_keys : simpl never.

Lemma flush_temp_settles this w s :
  w_fault w (RedisKeys "temp:*") = false →
  (∀ ks, w_fault w (RedisDel ks) = false) →
  (2 ≤ length s)%nat →
  ∃ tr,
    run s (start w (Redis.flush this TEMP)) =
    State (World (w_sql w)
             (delete_all (filter (λ k, glob "temp:*" k = true) (map_keys (w_redis w)))
                (w_redis w))
             (w_fault w))
          tr [] (Some (Resolved "ERR")).
Proof.
  intros Hk Hd Hlen. schedule s Hlen. destruct w as [sq rd ft]. cbn in Hk, Hd.
  destruct (filter (λ k, glob "temp:*" k = true) (map_keys rd)) as [|k0 ks] eqn:Hkeys;
  destruct this as [a b [|] t u x cl]; cbn.
  all: turn; rewrite ?Hk; cbn; rewrite Hkeys; cbn.
  1,2: rewrite run_quiescent by done; eexists; reflexivity.
  all: turn; rewrite Hd; cbn.
  all: rewrite run_quiescent by done; eexists; reflexivity.
Qed.

(** The timer job does what the call does. *)
Lemma flush_temp_job_settles this w s :
  w_fault w (RedisKeys "temp:*") = false →
  (∀ ks, w_fault w (RedisDel ks) = false) →
  (2 ≤ length s)%nat →
  ∃ tr,
    run s (start w (detach (Redis.flush this TEMP))) =
    State (World (w_sql w)
             (delete_all (filter (λ k, glob "temp:*" k = true) (map_keys (w_redis w)))
                (w_redis w))
             (w_fault w))
          tr [] (Some (Resolved tt)).
Proof.
  intros Hk Hd Hlen. schedule s Hlen. destruct w as [sq rd ft]. cbn in Hk, Hd.
  destruct (filter (λ k, glob "temp:*" k = true) (map_keys rd)) as [|k0 ks] eqn:Hkeys;
  destruct this as [a b [|] t u x cl]; cbn.
  all: turn; rewrite ?Hk; cbn; rewrite Hkeys; cbn.
  1,2: rewrite run_quiescent by done; eexists; reflexivity.
  all: turn; rewrite Hd; cbn.
  all: rewrite run_quiescent by done; eexists; reflexivity.
Qed.

(** The job of the timer is a call of [flush "TEMP"] whose promise is
    dropped. *)
Lemma autoTempFlush_job this lg tm :
  autoTempFlush this = (lg, Some tm) → job tm = detach (Redis.flush this TEMP).
Proof.
  unfold autoTempFlush.
  destruct (redisAutoTempFlushInterval this) as [n|]; [|done].
  destruct (truthy_num n); [|done]. destruct (n =? -1); [done|].
  by intros [= _ <-].
Qed.

(** The timer is registered unless the interval is unset, 0 or -1. *)
Lemma autoTempFlush_registers this :
  (∃ tm, (autoTempFlush this).2 = Some tm) ↔
  (∃ n, redisAutoTempFlushInterval this = Some n ∧ n ≠ 0 ∧ n ≠ -1).
Proof.
  unfold autoTempFlush, truthy_num.
  destruct (redisAutoTempFlushInterval this) as [n|].
  - destruct (Z.eqb_spec n 0) as [->|H0]; cbn.
    + split; [by intros [tm ?]|]. intros (n & [= <-] & ? & ?). done.
    + destruct (Z.eqb_spec n (-1)) as [->|H1]; cbn.
      * split; [by intros [tm ?]|]. intros (n & [= <-] & ? & ?). done.
      * split; [|by eexists]. intros _. by exists n.
  - split; [by intros [tm ?]|]. by intros (n & ? & _).
Qed.

(** What is left of a cache once the keys matching "temp:*" are deleted. *)
Lemma lookup_without_temp (m : gmap string entry) (k : string) :
  delete_all (filter (λ k, glob "temp:*" k = true) (map_keys m)) m !! k
  = if String.prefix "temp:" k then None else m !! k.
Proof.
  rewrite lookup_delete_all, <- glob_temp.
  destruct (decide _) as [Hin|Hout].
  - apply list_elem_of_filter in Hin as [-> _]. done.
  - destruct (glob "temp:*" k) eqn:Hg; [|done].
    destruct (m !! k) as [e|] eqn:Hm; [|done].
    destruct Hout. apply list_elem_of_filter. split; [done|].
    apply elem_of_map_keys. by exists e.
Qed.

(** C8.  Whatever the cache holds, once the temporary-key flush has run
    (its two requests served), every key that starts with "temp:" is
    absent from the cache and every other key has the entry it had; the
    table is untouched.  The same holds for the job of the timer that
    [autoTempFlush] registers. *)
Theorem flush_temp_removes_exactly_temp_keys this w s k :
  w_fault w (RedisKeys "temp:*") = false →
  (∀ ks, w_fault w (RedisDel ks) = false) →
  (2 ≤ length s)%nat →
  w_redis (world_after s w (Redis.flush this TEMP)) !! k
  = (if String.prefix "temp:" k then None else w_redis w !! k) ∧
  w_sql (world_after s w (Redis.flush this TEMP)) = w_sql w ∧
  (∀ lg tm, autoTempFlush this = (lg, Some tm) →
     w_redis (world_after s w (job tm)) !! k
     = (if String.prefix "temp:" k then None else w_redis w !! k)).
Proof.
  intros Hk Hd Hlen. unfold world_after. split; [|split].
  - destruct (flush_temp_settles this w s Hk Hd Hlen) as [tr ->]. cbn.
    apply lookup_without_temp.
  - by destruct (flush_temp_settles this w s Hk Hd Hlen) as [tr ->].
  - intros lg tm Htm. rewrite (autoTempFlush_job _ _ _ Htm).
    destruct (flush_temp_job_settles this w s Hk Hd Hlen) as [tr' ->]. cbn.
    apply lookup_without_temp.
Qed.

(** The scenario of the spec: of "temp:a", "temp:b" and "other:c" only the
    last one is left. *)
Lemma flush_temp_removes_exactly_temp_keys_witness :
  w_redis (world_after [0; 0]%nat (World ∅ temp_cache no_fault)
             (Redis.flush plain TEMP)) !! "temp:a" = None ∧
  w_redis (world_after [0; 0]%nat (World ∅ temp_cache no_fault)
             (Redis.flush plain TEMP)) !! "temp:b" = None ∧
  w_redis (world_after [0; 0]%nat (World ∅ temp_cache no_fault)
             (Redis.flush plain TEMP)) !! "other:c" = Some ("3", None).
Proof.
  assert (∀ k,
    w_redis (world_after [0; 0]%nat (World ∅ temp_cache no_fault)
               (Redis.flush plain TEMP)) !! k
    = (if String.prefix "temp:" k then None
       else w_redis (World ∅ temp_cache no_fault) !! k)) as Hflush.
  { intros k.
    refine (proj1 (flush_temp_removes_exactly_temp_keys plain
                     (World ∅ temp_cache no_fault) [0; 0]%nat k _ _ _)).
    - reflexivity.
    - intros ks. reflexivity.
    - simpl. lia. }
  split; [|split]; rewrite Hflush; reflexivity.
Defined.

(** ** Claims about events *)

Lemma sql_get_emits this k w s :
  w_fault w (SqlSelectValue k) = false →
  (1 ≤ length s)%nat →
  emitted (trace_of s w (Sql.get this k)) = [EvGet k (w_sql w !! k) SQL].
Proof.
  intros Hf Hlen. unfold trace_of. schedule s Hlen. cbn.
  turn. rewrite run_quiescent by done. cbn. by destruct (w_sql w !! k).
Qed.

Lemma sql_set_emits this k v w s :
  w_fault w (SqlUpsert k v) = false →
  (1 ≤ length s)%nat →
  emitted (trace_of s w (Sql.set this k v)) = [EvSet k v SQL].
Proof.
  intros Hf Hlen. unfold trace_of. schedule s Hlen. cbn.
  turn. by rewrite run_quiescent.
Qed.

Lemma sql_delete_emits this k w s :
  w_fault w (SqlDelete k) = false →
  (1 ≤ length s)%nat →
  emitted (trace_of s w (Sql.delete this k)) = [EvDelete k SQL].
Proof.
  intros Hf Hlen. unfold trace_of. schedule s Hlen. cbn.
  turn. by rewrite run_quiescent.
Qed.

Lemma redis_get_emits this k w s :
  w_fault w (RedisGet k) = false →
  (1 ≤ length s)%nat →
  emitted (trace_of s w (Redis.get this k)) = [EvGet k (fst <$> w_redis w !! k) REDIS].
Proof.
  intros Hf Hlen. unfold trace_of. schedule s Hlen.
  destruct this as [a b [|] t u x cl]; cbn.
  all: turn; by rewrite run_quiescent.
Qed.

Lemma redis_set_emits this k v expire w s :
  w_fault w (RedisSet k v) = false →
  (1 ≤ length s)%nat →
  emitted (trace_of s w (Redis.set this k v expire)) = [EvSet k v REDIS].
Proof.
  intros Hf Hlen. unfold trace_of. schedule s Hlen.
  destruct expire as [e|]; [destruct (truthy_num e) eqn:He|];
    destruct this as [a b [|] t u x cl]; cbn.
  all: turn; rewrite ?He; cbn.
  all: try (by rewrite run_quiescent).
  all: destruct s as [|n2 s]; [by rewrite run_nil|].
  all: destruct (w_fault w (RedisExpire k e)) eqn:Hx; turn;
    rewrite ?lookup_insert_eq; cbn; try destruct (e <=? 0); cbn;
    by rewrite run_quiescent.
Qed.

(** The cache adapter's [delete] emits nothing, whatever happens. *)
Lemma redis_delete_emits_nothing this keys w s :
  emitted (trace_of s w (Redis.delete this keys)) = [].
Proof.
  unfold trace_of.
  destruct s as [|n s]; [by destruct keys, this as [a b [|] t u x cl]|].
  destruct keys as [k|ks].
  - destruct (w_fault w (RedisDel [k])) eqn:Hf;
      destruct this as [a b [|] t u x cl]; cbn.
    all: turn; by rewrite run_quiescent.
  - destruct (w_fault w (RedisDel ks)) eqn:Hf;
      destruct this as [a b [|] t u x cl], ks as [|k ks]; cbn.
    all: turn; by rewrite run_quiescent.
Qed.

(** C9, as stated, fails for the cache tier's delete: the key is removed
    and no event is emitted; of a facade [delete] only the durable half
    is announced. *)
Lemma redis_delete_is_silent :
  outcome_of [0%nat] (World ∅ {[ "a" := ("1", None) ]} no_fault)
    (Redis.delete plain (inl "a")) = Some (Resolved 1) ∧
  w_redis (world_after [0%nat] (World ∅ {[ "a" := ("1", None) ]} no_fault)
             (Redis.delete plain (inl "a"))) !! "a" = None ∧
  emitted (trace_of [0%nat] (World ∅ {[ "a" := ("1", None) ]} no_fault)
             (Redis.delete plain (inl "a"))) = [] ∧
  emitted (trace_of [0; 0]%nat (World {[ "a" := "1" ]} {[ "a" := ("1", None) ]} no_fault)
             (Keystore.delete plain "a")) = [EvDelete "a" SQL].
Proof. split; [|split; [|split]]; vm_compute; reflexivity. Qed.

(** C9 (amended).  A successful get or set against either tier emits one
    event with the operation, the key, the value ([null] when there is
    none) and the tier; a successful delete against the table emits one
    event with the operation, the key and the tier, and no value field; a
    delete against the cache emits no event. *)
Theorem adapter_calls_emit_events this k v expire keys w s :
  (1 ≤ length s)%nat →
  (w_fault w (SqlSelectValue k) = false →
   emitted (trace_of s w (Sql.get this k)) = [EvGet k (w_sql w !! k) SQL]) ∧
  (w_fault w (SqlUpsert k v) = false →
   emitted (trace_of s w (Sql.set this k v)) = [EvSet k v SQL]) ∧
  (w_fault w (SqlDelete k) = false →
   emitted (trace_of s w (Sql.delete this k)) = [EvDelete k SQL] ∧
   ev_value (EvDelete k SQL) = None) ∧
  (w_fault w (RedisGet k) = false →
   emitted (trace_of s w (Redis.get this k)) = [EvGet k (fst <$> w_redis w !! k) REDIS]) ∧
  (w_fault w (RedisSet k v) = false →
   emitted (trace_of s w (Redis.set this k v expire)) = [EvSet k v REDIS]) ∧
  emitted (trace_of s w (Redis.delete this keys)) = [].
Proof.
  intros Hlen. split; [|split; [|split; [|split; [|split]]]].
  - intros Hf. by apply sql_get_emits.
  - intros Hf. by apply sql_set_emits.
  - intros Hf. split; [by apply sql_delete_emits|done].
  - intros Hf. by apply redis_get_emits.
  - intros Hf. by apply redis_set_emits.
  - apply redis_delete_emits_nothing.
Qed.

Lemma adapter_calls_emit_events_witness :
  emitted (trace_of [0%nat] (World {[ "a" := "1" ]} ∅ no_fault) (Sql.delete plain "a"))
  = [EvDelete "a" SQL] ∧
  emitted (trace_of [0%nat] (World {[ "a" := "1" ]} ∅ no_fault)
             (Redis.delete plain (inl "a"))) = [].
Proof.
  pose proof (adapter_calls_emit_events plain "a" "1" None (inl "a")
                (World {[ "a" := "1" ]} ∅ no_fault) [0%nat]) as H.
  destruct H as (_ & _ & Hdel & _ & _ & Hsilent).
  - simpl. lia.
  - split; [|exact Hsilent]. apply Hdel. reflexivity.
Defined.

(** * Further properties *)

(** ** Footprints *)

Section Footprint.
Variables (C : cmd → Prop) (L : logline → Prop) (E : event → Prop).

Lemma within_pbind {A B : Type} (p : proc A) (f : A → proc B) :
  within C L E p → (∀ a, within C L E (f a)) → within C L E (pbind p f).
Proof.
  intros Hp. revert B f.
  induction Hp; intros B f Hf; cbn; try constructor; auto.
Qed.

Lemma within_bind {A B : Type} (p : proc A) (f : A → proc B) :
  within C L E p → (∀ a, within C L E (f a)) → within C L E (p ≫= f).
Proof. apply within_pbind. Qed.

Lemma within_fmap {A B : Type} (p : proc A) (f : A → B) :
  within C L E p → within C L E (f <$> p).
Proof. intros Hp. apply within_pbind; [done|]. intros a. constructor. Qed.

Lemma within_try_catch {A : Type} (p : proc A) (h : string → proc A) :
  within C L E p → (∀ e, within C L E (h e)) → within C L E (try_catch p h).
Proof.
  intros Hp. revert h.
  induction Hp; intros h Hh; cbn; try constructor; auto.
Qed.

Lemma within_await (c : cmd) : C c → within C L E (await c).
Proof. intros Hc. constructor; [done|]. intros [x|e]; constructor. Qed.

Lemma within_detach {A : Type} (p : proc A) :
  within C L E p → within C L E (detach p).
Proof.
  intros Hp. constructor; [|constructor].
  apply within_pbind; [done|]. intros a. constructor.
Qed.

Lemma within_emit (e : event) : E e → within C L E (emit e).
Proof. intros He. constructor; [done|constructor]. Qed.

Lemma within_log (l : logline) : L l → within C L E (log l).
Proof. intros Hl. constructor; [done|constructor]. Qed.

Lemma within_when (b : bool) (p : proc unit) :
  (b = true → within C L E p) → within C L E (when b p).
Proof. destruct b; cbn; [auto|constructor]. Qed.

Lemma within_mret {A : Type} (a : A) : within C L E (mret a).
Proof. constructor. Qed.

(** A body that stays within its footprint does so in every burst. *)
Definition orphan_within (o : orphan) : Prop :=
  C o.1 ∧ ∀ r, within C L E (o.2 r).

Definition status_within {A : Type} (s : status A) : Prop :=
  match s with
  | Blocked c k => C c ∧ ∀ r, within C L E (k r)
  | _ => True
  end.

Lemma advance_within {A : Type} (p : proc A) :
  within C L E p →
  Forall (obs_within C L E) (advance p).1.1 ∧
  Forall orphan_within (advance p).1.2 ∧
  status_within (advance p).2.
Proof.
  induction 1 as [A a|A e|A c k Hc Hk IH|A e k He Hk IH|A l k Hl Hk IH
                 |A q k Hq IHq Hk IHk]; cbn.
  - done.
  - done.
  - split; [by repeat constructor|]. split; [constructor|]. done.
  - destruct (advance k) as [[o bg] s]. cbn in *.
    destruct IH as (Ho & Hbg & Hs). split; [by constructor|]. done.
  - destruct (advance k) as [[o bg] s]. cbn in *.
    destruct IH as (Ho & Hbg & Hs). split; [by constructor|]. done.
  - destruct (advance q) as [[oq bgq] sq], (advance k) as [[o bg] s]. cbn in *.
    destruct IHq as (Hoq & Hbgq & Hsq), IHk as (Ho & Hbg & Hs).
    split; [|split; [|done]].
    + rewrite !Forall_app. split; [done|]. split; [|done].
      destruct sq; cbn; by repeat constructor.
    + rewrite !Forall_app. split; [done|]. split; [|done].
      destruct sq as [a|e|c k']; cbn; [constructor|constructor|].
      constructor; [exact Hsq|constructor].
Qed.

(** The invariant of the loop: the trace so far and everything that waits
    stay within the footprint. *)
Definition thread_within {A : Type} (x : cmd * thread A) : Prop :=
  C x.1 ∧
  match x.2 with
  | Fg k => ∀ r, within C L E (k r)
  | Bg k => ∀ r, within C L E (k r)
  end.

Definition state_within {A : Type} (st : state A) : Prop :=
  Forall (obs_within C L E) (st_trace st) ∧ Forall thread_within (st_pending st).

Lemma bg_pending_within {A : Type} (l : list orphan) :
  Forall orphan_within l → Forall (@thread_within A) (bg_pending l).
Proof.
  intros Hl. unfold bg_pending. apply Forall_fmap.
  eapply Forall_impl; [exact Hl|]. by intros [c k] [? ?].
Qed.

Lemma resume_fg_within {A : Type} (st : state A) (p : proc A) :
  state_within st → within C L E p → state_within (resume_fg st p).
Proof.
  intros [Ht Hp] Hw. unfold resume_fg.
  destruct (advance_within p Hw) as (Ho & Hbg & Hs).
  destruct (advance p) as [[o bg] s]. cbn in *. split; cbn.
  - by apply Forall_app.
  - rewrite !Forall_app. split; [done|]. split; [by apply bg_pending_within|].
    destruct s as [a|e|c k]; [constructor|constructor|].
    constructor; [exact Hs|constructor].
Qed.

Lemma resume_bg_within {A : Type} (st : state A) (p : proc unit) :
  state_within st → within C L E p → state_within (resume_bg st p).
Proof.
  intros [Ht Hp] Hw. unfold resume_bg.
  destruct (advance_within p Hw) as (Ho & Hbg & Hs).
  destruct (advance p) as [[o bg] s]. cbn in *. split; cbn.
  - rewrite !Forall_app. split; [done|]. split; [done|].
    destruct s; cbn; by repeat constructor.
  - rewrite !Forall_app. split; [done|]. split; [by apply bg_pending_within|].
    apply bg_pending_within.
    destruct s as [a|e|c k]; cbn; [constructor|constructor|].
    constructor; [exact Hs|constructor].
Qed.

(** One turn keeps the invariant, and the request it serves is in [C]. *)
Lemma step_within {A : Type} (Inv : world → Prop) n (st : state A) :
  (∀ c w, C c → Inv w → Inv (exec c w).2) →
  state_within st → Inv (st_world st) →
  state_within (step n st) ∧ Inv (st_world (step n st)).
Proof.
  intros Hexec [Ht Hp] Hinv. unfold step.
  destruct (pick n (st_pending st)) as [[[c t] rest]|] eqn:Hpick; [|done].
  destruct (pick_Forall _ _ _ _ _ Hp Hpick) as [[Hc Hk] Hrest]. cbn in Hc, Hk.
  specialize (Hexec c (st_world st) Hc Hinv).
  destruct (exec c (st_world st)) as [r w']. cbn in Hexec.
  assert (state_within (State w' (st_trace st ++ [OSettle c r]) rest (st_outcome st)))
    as Hst'.
  { split; cbn; [|done]. apply Forall_app. split; [done|by repeat constructor]. }
  destruct t as [k|k].
  - split; [by apply resume_fg_within|].
    unfold resume_fg. by destruct (advance (k r)) as [[o bg] s].
  - split; [by apply resume_bg_within|].
    unfold resume_bg. by destruct (advance (k r)) as [[o bg] s].
Qed.

Lemma run_within {A : Type} (Inv : world → Prop) s (st : state A) :
  (∀ c w, C c → Inv w → Inv (exec c w).2) →
  state_within st → Inv (st_world st) →
  state_within (run s st) ∧ Inv (st_world (run s st)).
Proof.
  intros Hexec. revert st.
  induction s as [|n s IH]; intros st Hst Hinv; [done|].
  rewrite run_cons.
  destruct (step_within Inv n st Hexec Hst Hinv) as [Hst' Hinv']. by apply IH.
Qed.

Lemma start_within {A : Type} (w : world) (p : proc A) :
  within C L E p → state_within (start w p).
Proof. intros Hp. apply resume_fg_within; [|done]. by split. Qed.

(** What a body within a footprint shows to an observer... *)
Lemma trace_within {A : Type} s w (p : proc A) :
  within C L E p → Forall (obs_within C L E) (trace_of s w p).
Proof.
  intros Hp. unfold trace_of.
  destruct (run_within (λ _, True) s (start w p)) as [[Ht _] _];
    auto using start_within.
Qed.

(** ... and what it leaves alone on the servers. *)
Lemma world_within {A : Type} (Inv : world → Prop) s w (p : proc A) :
  (∀ c w, C c → Inv w → Inv (exec c w).2) →
  within C L E p → Inv w → Inv (world_after s w p).
Proof.
  intros Hexec Hp Hinv. unfold world_after.
  destruct (run_within Inv s (start w p)) as [_ H]; auto using start_within.
  unfold start, resume_fg. by destruct (advance p) as [[o bg] st].
Qed.

End Footprint.

(** ** Footprints of the methods *)

Section MethodFootprints.
Variables (C : cmd → Prop) (L : logline → Prop) (E : event → Prop).
Variable this : Database.
Hypothesis errors_allowed : ∀ e, L (LogError e).
Hypothesis debug_allowed : debug this = true → ∀ m, L (LogInfo m).

Lemma sql_get_within k :
  C (SqlSelectValue k) → (∀ v, E (EvGet k v SQL)) → within C L E (Sql.get this k).
Proof.
  intros Hc He. unfold Sql.get.
  apply within_bind; [by apply within_await|]. intros rep.
  apply within_bind; [by apply within_emit|]. intros _. apply within_mret.
Qed.

Lemma sql_set_within k v :
  C (SqlUpsert k v) → E (EvSet k v SQL) → within C L E (Sql.set this k v).
Proof.
  intros Hc He. unfold Sql.set.
  apply within_bind; [by apply within_await|]. intros _. by apply within_emit.
Qed.

Lemma sql_delete_within k :
  C (SqlDelete k) → E (EvDelete k SQL) → within C L E (Sql.delete this k).
Proof.
  intros Hc He. unfold Sql.delete.
  apply within_bind; [by apply within_await|]. intros _. by apply within_emit.
Qed.

Lemma sql_getAllKeys_within :
  C SqlSelectKeys → within C L E (Sql.getAllKeys this).
Proof.
  intros Hc. unfold Sql.getAllKeys.
  apply within_bind; [by apply within_await|]. intros rep. apply within_mret.
Qed.

Lemma debug_line_within m : within C L E (when (debug this) (log (LogInfo m))).
Proof. apply within_when. intros Hd. apply within_log. by apply debug_allowed. Qed.

Lemma caught_within {A : Type} (a : A) e :
  within C L E (log (LogError e);; mret a).
Proof.
  apply within_bind; [by apply within_log|]. intros _. apply within_mret.
Qed.

Lemma redis_get_within k :
  C (RedisGet k) → (∀ v, E (EvGet k v REDIS)) → within C L E (Redis.get this k).
Proof.
  intros Hc He. unfold Redis.get.
  apply within_bind; [apply debug_line_within|]. intros _.
  apply within_try_catch; [|intros e; apply caught_within].
  apply within_bind; [by apply within_await|]. intros rep.
  apply within_bind; [by apply within_emit|]. intros _.
  apply within_bind; [apply debug_line_within|]. intros _. apply within_mret.
Qed.

Lemma redis_set_within k v expire :
  C (RedisSet k v) → (∀ n, expire = Some n → C (RedisExpire k n)) →
  E (EvSet k v REDIS) → within C L E (Redis.set this k v expire).
Proof.
  intros Hc Hx He. unfold Redis.set.
  apply within_bind; [apply debug_line_within|]. intros _.
  apply within_try_catch; [|intros e; apply caught_within].
  apply within_bind; [by apply within_await|]. intros _.
  apply within_bind; [by apply within_emit|]. intros _.
  apply within_bind; [|intros _; apply within_mret].
  destruct expire as [n|]; [|apply within_mret].
  destruct (truthy_num n); [|apply within_mret].
  apply within_bind; [apply within_await; auto|]. intros _. apply within_mret.
Qed.

Lemma redis_delete_within keys :
  C (RedisDel match keys with inl k => [k] | inr ks => ks end) →
  within C L E (Redis.delete this keys).
Proof.
  intros Hc. unfold Redis.delete.
  apply within_bind; [apply debug_line_within|]. intros _.
  destruct keys as [k|ks]; apply within_fmap; by apply within_await.
Qed.

Lemma redis_flush_within ty :
  C RedisFlushAll → C (RedisKeys "temp:*") → (∀ ks, C (RedisDel ks)) →
  (∀ ks, L (LogKeys ks)) → within C L E (Redis.flush this ty).
Proof.
  intros Hall Hkeys Hdel Hlog. unfold Redis.flush. destruct ty.
  - apply within_fmap. by apply within_await.
  - apply within_try_catch; [|intros e; apply caught_within].
    constructor; [|apply within_mret].
    apply within_bind; [by apply within_await|]. intros rep.
    destruct (0 <? length (rows_of rep))%nat; [|apply within_mret].
    apply within_bind; [by apply within_log|]. intros _.
    apply within_detach. by apply redis_delete_within.
Qed.

Lemma keystore_get_within k :
  C (RedisGet k) → C (SqlSelectValue k) →
  (∀ v, C (RedisSet k v)) → C (RedisExpire k (defaultExpire this)) →
  (∀ v t, E (EvGet k v t)) → (∀ v, E (EvSet k v REDIS)) →
  within C L E (Keystore.get this k).
Proof.
  intros Hg Hq Hs Hx Eg Es. unfold Keystore.get.
  apply within_bind; [by apply redis_get_within|]. intros r.
  destruct (truthy_opt r); [apply within_mret|].
  apply within_bind; [by apply sql_get_within|]. intros [v|]; unfold if_truthy; [|apply within_mret].
  destruct (truthy_str v); [|apply within_mret].
  apply within_bind; [|intros _; apply within_mret].
  apply within_detach. apply redis_set_within; auto. by intros n [= <-].
Qed.

Lemma keystore_set_within k v :
  C (SqlUpsert k v) → C (RedisSet k v) → C (RedisExpire k (defaultExpire this)) →
  (∀ t, E (EvSet k v t)) → within C L E (Keystore.set this k v).
Proof.
  intros Hu Hs Hx Es. unfold Keystore.set.
  apply within_bind; [apply within_detach; by apply sql_set_within|]. intros _.
  apply within_detach. apply redis_set_within; auto. by intros n [= <-].
Qed.

Lemma keystore_delete_within k :
  C (SqlDelete k) → C (RedisDel [k]) → E (EvDelete k SQL) →
  within C L E (Keystore.delete this k).
Proof.
  intros Hd Hr Ed. unfold Keystore.delete.
  apply within_bind; [apply within_detach; by apply sql_delete_within|]. intros _.
  apply within_detach. by apply redis_delete_within.
Qed.

End MethodFootprints.

(** ** What the operations leave alone *)

Lemma exec_other_cache_key k k' c w :
  about k c → k' ≠ k → w_redis (exec c w).2 !! k' = w_redis w !! k'.
Proof.
  intros Hc Hne. unfold exec. destruct (w_fault w c); [done|].
  destruct c; cbn in Hc; try done; subst; cbn.
  - by rewrite lookup_insert_ne.
  - destruct (w_redis w !! k) as [[v t]|]; [|done].
    destruct (seconds <=? 0); cbn.
    + by rewrite lookup_delete_ne.
    + by rewrite lookup_insert_ne.
  - by rewrite lookup_delete_ne.
Qed.

Lemma exec_table_untouched c w :
  writes_table c = false → w_sql (exec c w).2 = w_sql w.
Proof.
  intros Hc. unfold exec. destruct (w_fault w c); [done|].
  destruct c; try done; cbn.
  - destruct (w_redis w !! key) as [[v t]|]; [|done]. by destruct (seconds <=? 0).
  - by destruct keys.
Qed.

Lemma exec_cache_untouched c w :
  writes_cache c = false → w_redis (exec c w).2 = w_redis w.
Proof.
  intros Hc. unfold exec. destruct (w_fault w c); [done|]. by destruct c.
Qed.

(** X1.  Whatever the servers do and in whatever order they answer,
    [get k], [set k v] and [delete k] leave the cache entry of every other
    key as it was.  (Redis compares keys byte by byte.  Which rows of the
    table count as another key is up to the collation of the key column,
    so nothing is said here about the table.) *)
Theorem keystore_ops_leave_other_cache_keys this k v k' w s :
  k' ≠ k →
  w_redis (world_after s w (Keystore.get this k)) !! k' = w_redis w !! k' ∧
  w_redis (world_after s w (Keystore.set this k v)) !! k' = w_redis w !! k' ∧
  w_redis (world_after s w (Keystore.delete this k)) !! k' = w_redis w !! k'.
Proof.
  intros Hne.
  set (Inv := λ w', w_redis w' !! k' = w_redis w !! k').
  assert (∀ c w', about k c → Inv w' → Inv (exec c w').2) as Hexec.
  { intros c w' Hc Hr. unfold Inv. by rewrite (exec_other_cache_key k k' c w' Hc Hne). }
  split; [|split].
  - apply (world_within (about k) any_line any_event Inv); [done| |done].
    by apply keystore_get_within.
  - apply (world_within (about k) any_line any_event Inv); [done| |done].
    by apply keystore_set_within.
  - apply (world_within (about k) any_line any_event Inv); [done| |done].
    by apply keystore_delete_within.
Qed.

Lemma keystore_ops_leave_other_cache_keys_witness :
  w_redis (world_after [0; 0; 0]%nat
             (World {[ "b" := "2" ]} {[ "b" := ("2", Some 10) ]} no_fault)
             (Keystore.set plain "a" "1")) !! "b" = Some ("2", Some 10) ∧
  w_redis (world_after [0; 0]%nat
             (World {[ "b" := "2" ]} {[ "b" := ("2", Some 10) ]} no_fault)
             (Keystore.delete plain "a")) !! "b" = Some ("2", Some 10).
Proof.
  pose proof (keystore_ops_leave_other_cache_keys plain "a" "1" "b"
                (World {[ "b" := "2" ]} {[ "b" := ("2", Some 10) ]} no_fault)
                [0; 0; 0]%nat) as Hset.
  pose proof (keystore_ops_leave_other_cache_keys plain "a" "1" "b"
                (World {[ "b" := "2" ]} {[ "b" := ("2", Some 10) ]} no_fault)
                [0; 0]%nat) as Hdel.
  destruct Hset as (_ & Hset & _); [discriminate|].
  destruct Hdel as (_ & _ & Hdel); [discriminate|].
  split; [rewrite Hset|rewrite Hdel]; reflexivity.
Defined.

(** X2.  A read never writes the table: in every run of [get], whatever
    fails, the table is what it was. *)
Theorem get_never_writes_table this k w s :
  w_sql (world_after s w (Keystore.get this k)) = w_sql w.
Proof.
  apply (world_within (λ c, writes_table c = false) any_line any_event
           (λ w', w_sql w' = w_sql w)); [|by apply keystore_get_within|done].
  intros c w' Hc Hw'. by rewrite exec_table_untouched.
Qed.

(** The job of the full-flush timer: the debug line, then a call of
    [flush "ALL"] whose promise is dropped. *)
Lemma autoFlush_job this tm :
  autoFlush this = Some tm →
  job tm = (when (debug this) (log (LogInfo "CHORE: FLUSH ALL KEYS [REDIS]"));;
            detach (Redis.flush this ALL)).
Proof.
  unfold autoFlush.
  destruct (redisAutoFlushInterval this) as [n|]; [|done].
  destruct (truthy_num n); [|done]. destruct (n =? -1); [done|].
  by intros [= <-].
Qed.

(** X3.  Neither flush touches the table, as a call or as the job of its
    timer, whatever fails and however far the run got. *)
Theorem flush_never_touches_table this ty w s :
  w_sql (world_after s w (Redis.flush this ty)) = w_sql w ∧
  (∀ tm, autoFlush this = Some tm → w_sql (world_after s w (job tm)) = w_sql w) ∧
  (∀ lg tm, autoTempFlush this = (lg, Some tm) →
             w_sql (world_after s w (job tm)) = w_sql w).
Proof.
  assert (∀ c w', on_tier REDIS c → w_sql w' = w_sql w → w_sql (exec c w').2 = w_sql w)
    as Hexec.
  { intros c w' Hc Hw'. rewrite exec_table_untouched; [done|]. by destruct c. }
  assert (∀ ty', within (on_tier REDIS) any_line any_event (Redis.flush this ty'))
    as Hflush by (intros ty'; by apply redis_flush_within).
  split; [|split].
  - apply (world_within (on_tier REDIS) any_line any_event (λ w', w_sql w' = w_sql w));
      [done|apply Hflush|done].
  - intros tm Htm. rewrite (autoFlush_job _ _ Htm).
    apply (world_within (on_tier REDIS) any_line any_event (λ w', w_sql w' = w_sql w));
      [done| |done].
    apply within_bind; [apply within_when; intros _; by apply within_log|].
    intros _. apply within_detach, Hflush.
  - intros lg tm Htm. rewrite (autoTempFlush_job _ _ _ Htm).
    apply (world_within (on_tier REDIS) any_line any_event (λ w', w_sql w' = w_sql w));
      [done| |done].
    apply within_detach, Hflush.
Qed.

Lemma flush_never_touches_table_witness :
  w_sql (world_after [0; 0]%nat (World {[ "k" := "v" ]} temp_cache no_fault)
           (Redis.flush verbose TEMP))
  = w_sql (World {[ "k" := "v" ]} temp_cache no_fault).
Proof.
  exact (proj1 (flush_never_touches_table verbose TEMP
                  (World {[ "k" := "v" ]} temp_cache no_fault) [0; 0]%nat)).
Defined.

(** X4.  The two adapters stay on their tier: no method of the SQL adapter
    changes the cache and no method of the Redis adapter changes the
    table. *)
Theorem adapters_stay_on_their_tier this k v expire keys ty w s :
  (w_redis (world_after s w (Sql.get this k)) = w_redis w ∧
   w_redis (world_after s w (Sql.set this k v)) = w_redis w ∧
   w_redis (world_after s w (Sql.delete this k)) = w_redis w ∧
   w_redis (world_after s w (Sql.getAllKeys this)) = w_redis w) ∧
  (w_sql (world_after s w (Redis.get this k)) = w_sql w ∧
   w_sql (world_after s w (Redis.set this k v expire)) = w_sql w ∧
   w_sql (world_after s w (Redis.delete this keys)) = w_sql w ∧
   w_sql (world_after s w (Redis.flush this ty)) = w_sql w).
Proof.
  assert (∀ c w', on_tier SQL c → w_redis w' = w_redis w →
                  w_redis (exec c w').2 = w_redis w) as Hsql.
  { intros c w' Hc Hw'. rewrite exec_cache_untouched; [done|]. by destruct c. }
  assert (∀ c w', on_tier REDIS c → w_sql w' = w_sql w →
                  w_sql (exec c w').2 = w_sql w) as Hredis.
  { intros c w' Hc Hw'. rewrite exec_table_untouched; [done|]. by destruct c. }
  split; repeat apply conj.
  1-4: apply (world_within (on_tier SQL) any_line any_event
                (λ w', w_redis w' = w_redis w)); [done| |done].
  5-8: apply (world_within (on_tier REDIS) any_line any_event
                (λ w', w_sql w' = w_sql w)); [done| |done].
  - by apply sql_get_within.
  - by apply sql_set_within.
  - by apply sql_delete_within.
  - by apply sql_getAllKeys_within.
  - by apply redis_get_within.
  - by apply redis_set_within.
  - by apply redis_delete_within.
  - by apply redis_flush_within.
Qed.

(** X5.  With [debug] off, [get], [set] and [delete] log nothing but
    errors. *)
Theorem quiet_without_debug this k v w s l :
  debug this = false →
  (OLog l ∈ trace_of s w (Keystore.get this k) → is_error_line l) ∧
  (OLog l ∈ trace_of s w (Keystore.set this k v) → is_error_line l) ∧
  (OLog l ∈ trace_of s w (Keystore.delete this k) → is_error_line l).
Proof.
  intros Hd.
  assert (∀ A (p : proc A), within any_cmd is_error_line any_event p →
            OLog l ∈ trace_of s w p → is_error_line l) as Hlog.
  { intros A p Hp Hin.
    pose proof (trace_within _ _ _ s w p Hp) as Hall.
    rewrite Forall_forall in Hall. exact (Hall _ Hin). }
  split; [|split]; apply Hlog.
  - apply keystore_get_within; try done. intros Hd'. congruence.
  - apply keystore_set_within; try done. intros Hd'. congruence.
  - apply keystore_delete_within; try done. intros Hd'. congruence.
Qed.

Lemma quiet_without_debug_witness :
  OLog (LogError "request failed")
    ∈ trace_of [0%nat] (World ∅ ∅ (fails_on (RedisGet "k"))) (Keystore.get plain "k") ∧
  is_error_line (LogError "request failed").
Proof.
  assert (OLog (LogError "request failed")
            ∈ trace_of [0%nat] (World ∅ ∅ (fails_on (RedisGet "k")))
                (Keystore.get plain "k")) as Hin.
  { vm_compute. in_trace. }
  split; [exact Hin|].
  exact (proj1 (quiet_without_debug plain "k" "v"
                  (World ∅ ∅ (fails_on (RedisGet "k"))) [0%nat]
                  (LogError "request failed") eq_refl) Hin).
Defined.

(** X6.  The events of an operation on [k] are about [k]: [set k v] only
    announces writes of [v] under [k], [delete k] only the durable delete
    of [k], and [get k] only reads of [k] and the cache write of [k]. *)
Theorem events_carry_the_key this k v w s e :
  (OEmit e ∈ trace_of s w (Keystore.set this k v) → ∃ t, e = EvSet k v t) ∧
  (OEmit e ∈ trace_of s w (Keystore.delete this k) → e = EvDelete k SQL) ∧
  (OEmit e ∈ trace_of s w (Keystore.get this k) →
   (∃ x t, e = EvGet k x t) ∨ (∃ x, e = EvSet k x REDIS)).
Proof.
  assert (∀ E A (p : proc A), within any_cmd any_line E p →
            OEmit e ∈ trace_of s w p → E e) as Hev.
  { intros E A p Hp Hin.
    pose proof (trace_within _ _ _ s w p Hp) as Hall.
    rewrite Forall_forall in Hall. exact (Hall _ Hin). }
  split; [|split].
  - apply (Hev (λ e, ∃ t, e = EvSet k v t)).
    apply keystore_set_within; try done. intros t. by exists t.
  - apply (Hev (λ e, e = EvDelete k SQL)).
    by apply keystore_delete_within.
  - apply (Hev (λ e, (∃ x t, e = EvGet k x t) ∨ (∃ x, e = EvSet k x REDIS))).
    apply keystore_get_within; try done.
    + intros x t. left. by exists x, t.
    + intros x. right. by exists x.
Qed.

Lemma events_carry_the_key_witness :
  OEmit (EvDelete "k" SQL)
    ∈ trace_of [0; 0]%nat (World ∅ ∅ no_fault) (Keystore.delete plain "k") ∧
  EvDelete "k" SQL = EvDelete "k" SQL.
Proof.
  assert (OEmit (EvDelete "k" SQL)
            ∈ trace_of [0; 0]%nat (World ∅ ∅ no_fault) (Keystore.delete plain "k"))
    as Hin by (vm_compute; in_trace).
  split; [exact Hin|].
  exact (proj1 (proj2 (events_carry_the_key plain "k" "v" (World ∅ ∅ no_fault)
                         [0; 0]%nat (EvDelete "k" SQL))) Hin).
Defined.

(** ** The write path, settled *)

Ltac not_in_trace :=
  let H := fresh in
  intros H; repeat (apply elem_of_cons in H as [H|H]; [discriminate H|]);
  by apply elem_of_nil in H.

(** Where [set] ends up when every request succeeds or fails as the
    oracle says, for any default expiry other than 0: a positive expiry is
    attached to the entry, a negative one removes it. *)
Lemma set_settles_signed this k v w s :
  w_fault w (RedisSet k v) = false →
  w_fault w (RedisExpire k (defaultExpire this)) = false →
  defaultExpire this ≠ 0 →
  (3 ≤ length s)%nat →
  ∃ tr,
    run s (start w (Keystore.set this k v)) =
    State (World (if w_fault w (SqlUpsert k v) then w_sql w else <[k := v]> (w_sql w))
                 (if 0 <? defaultExpire this
                  then <[k := (v, Some (defaultExpire this))]> (w_redis w)
                  else delete k (w_redis w))
                 (w_fault w))
          tr [] (Some (Resolved tt)).
Proof.
  intros Hr He Hnz Hlen. schedule s Hlen.
  assert (truthy_num (defaultExpire this) = true) as Ht.
  { unfold truthy_num. by destruct (Z.eqb_spec (defaultExpire this) 0). }
  destruct (Z.ltb_spec 0 (defaultExpire this)) as [Hpos|Hneg].
  - destruct (set_settles this k v w (n :: n0 :: n1 :: s) Hr He Hpos) as (tr & -> & _);
      [simpl; lia|]. by eexists.
  - assert ((defaultExpire this <=? 0) = true) as Hle by lia.
    destruct (w_fault w (SqlUpsert k v)) eqn:Hs;
      destruct this as [a b [|] t u ttl cl]; cbn in *.
    all: repeat (turn; rewrite ?lookup_insert_eq, ?Ht, ?Hle; cbn).
    all: rewrite run_quiescent by done; rewrite delete_insert_eq; eexists; reflexivity.
Qed.

(** X7.  Write-through.  When the three requests of [set k v] succeed and
    the default expiry is positive, then in whatever order the servers
    answer, the call resolves, the table holds [v] under [k], the cache
    holds [v] under [k] with the default expiry, whatever either tier held
    before, and one "set" event per tier was emitted. *)
Theorem set_writes_both_tiers this k v w s :
  w_fault w (SqlUpsert k v) = false →
  w_fault w (RedisSet k v) = false →
  w_fault w (RedisExpire k (defaultExpire this)) = false →
  0 < defaultExpire this →
  (3 ≤ length s)%nat →
  outcome_of s w (Keystore.set this k v) = Some (Resolved tt) ∧
  w_sql (world_after s w (Keystore.set this k v)) !! k = Some v ∧
  w_redis (world_after s w (Keystore.set this k v)) !! k
  = Some (v, Some (defaultExpire this)) ∧
  OEmit (EvSet k v SQL) ∈ trace_of s w (Keystore.set this k v) ∧
  OEmit (EvSet k v REDIS) ∈ trace_of s w (Keystore.set this k v).
Proof.
  intros Hu Hr He Hpos Hlen. unfold outcome_of, world_after, trace_of.
  schedule s Hlen.
  destruct this as [a b [|] t u ttl cl]; cbn in *; tidy.
  all: turns.
  all: rewrite run_quiescent by done; cbn; rewrite !lookup_insert_eq.
  all: split; [done|]; split; [done|]; split; [done|]; split; in_trace.
Qed.

Lemma set_writes_both_tiers_witness :
  w_sql (world_after [1; 0; 0]%nat
           (World {[ "k" := "old" ]} {[ "k" := ("old", None) ]} no_fault)
           (Keystore.set plain "k" "new")) !! "k" = Some "new" ∧
  w_redis (world_after [1; 0; 0]%nat
             (World {[ "k" := "old" ]} {[ "k" := ("old", None) ]} no_fault)
             (Keystore.set plain "k" "new")) !! "k" = Some ("new", Some 3600).
Proof.
  pose proof (set_writes_both_tiers plain "k" "new"
                (World {[ "k" := "old" ]} {[ "k" := ("old", None) ]} no_fault)
                [1; 0; 0]%nat) as H.
  destruct H as (_ & Hs & Hr & _).
  - reflexivity.
  - reflexivity.
  - reflexivity.
  - reflexivity.
  - simpl. lia.
  - split; [exact Hs|exact Hr].
Defined.

(** Where [set] ends up when the cache [SET] fails and the durable write
    succeeds. *)
Lemma set_cache_failure_settles this k v w s :
  w_fault w (SqlUpsert k v) = false →
  w_fault w (RedisSet k v) = true →
  (2 ≤ length s)%nat →
  ∃ tr,
    run s (start w (Keystore.set this k v)) =
    State (World (<[k := v]> (w_sql w)) (w_redis w) (w_fault w)) tr []
      (Some (Resolved tt)) ∧
    OLog (LogError "request failed") ∈ tr ∧
    (∀ e, OUnhandled e ∉ tr).
Proof.
  intros Hu Hr Hlen. schedule s Hlen.
  destruct this as [a b [|] t u ttl cl]; cbn in *.
  all: turns.
  all: rewrite run_quiescent by done; eexists; split; [reflexivity|].
  all: split; [in_trace|intros e; not_in_trace].
Qed.

(** X8.  The cache is best effort on the write path.  When the cache [SET]
    fails and the durable write succeeds, [set] still resolves, the table
    holds the value, the cache is what it was, and the failure is logged
    by the adapter, not left as an unhandled rejection. *)
Theorem set_survives_cache_failure this k v w s :
  w_fault w (SqlUpsert k v) = false →
  w_fault w (RedisSet k v) = true →
  (2 ≤ length s)%nat →
  outcome_of s w (Keystore.set this k v) = Some (Resolved tt) ∧
  w_sql (world_after s w (Keystore.set this k v)) !! k = Some v ∧
  w_redis (world_after s w (Keystore.set this k v)) = w_redis w ∧
  OLog (LogError "request failed") ∈ trace_of s w (Keystore.set this k v) ∧
  (∀ e, OUnhandled e ∉ trace_of s w (Keystore.set this k v)).
Proof.
  intros Hu Hr Hlen. unfold outcome_of, world_after, trace_of.
  destruct (set_cache_failure_settles this k v w s Hu Hr Hlen) as (tr & -> & Hlog & Hun).
  cbn. by rewrite lookup_insert_eq.
Qed.

Lemma set_survives_cache_failure_witness :
  w_sql (world_after [0; 0]%nat (World ∅ ∅ (fails_on (RedisSet "k" "v")))
           (Keystore.set plain "k" "v")) !! "k" = Some "v" ∧
  w_redis (world_after [0; 0]%nat (World ∅ ∅ (fails_on (RedisSet "k" "v")))
             (Keystore.set plain "k" "v")) = ∅.
Proof.
  pose proof (set_survives_cache_failure plain "k" "v"
                (World ∅ ∅ (fails_on (RedisSet "k" "v"))) [0; 0]%nat) as H.
  destruct H as (_ & Hs & Hr & _).
  - reflexivity.
  - reflexivity.
  - simpl. lia.
  - split; [exact Hs|exact Hr].
Defined.

(** X9.  An instance that came out of the constructor never leaves a value
    in the cache without expiry through [set]: once the cache requests
    have succeeded, the entry carries the default expiry or is gone. *)
Theorem constructed_set_always_expires r u cfg this k v w s :
  constructor r u cfg = inr this →
  w_fault w (RedisSet k v) = false →
  w_fault w (RedisExpire k (defaultExpire this)) = false →
  (3 ≤ length s)%nat →
  defaultExpire this ≠ 0 ∧
  (w_redis (world_after s w (Keystore.set this k v)) !! k
   = Some (v, Some (defaultExpire this)) ∨
   w_redis (world_after s w (Keystore.set this k v)) !! k = None).
Proof.
  intros Hc Hr He Hlen.
  assert (defaultExpire this ≠ 0) as Hnz.
  { rewrite (constructor_defaultExpire _ _ _ _ Hc). unfold expire_or_default.
    destruct (opt_field cfg Config.defaultExpire) as [n|]; [|done].
    unfold truthy_num. by destruct (Z.eqb_spec n 0). }
  split; [done|]. unfold world_after.
  destruct (set_settles_signed this k v w s) as [tr ->]; try done. cbn.
  destruct (0 <? defaultExpire this).
  - left. apply lookup_insert_eq.
  - right. apply lookup_delete_eq.
Qed.

Lemma constructed_set_always_expires_witness :
  w_redis (world_after [0; 0; 0]%nat (World ∅ ∅ no_fault)
             (Keystore.set verbose "k" "v")) !! "k" = Some ("v", Some 400) ∨
  w_redis (world_after [0; 0; 0]%nat (World ∅ ∅ no_fault)
             (Keystore.set verbose "k" "v")) !! "k" = None.
Proof.
  refine (proj2 (constructed_set_always_expires
                   (Some "redis://localhost") (Some "mysql://localhost")
                   (Some (Config.Make (Some 60000) (Some 5000) (Some true)
                            (Some "kv") (Some 400)))
                   verbose "k" "v" (World ∅ ∅ no_fault) [0; 0; 0]%nat _ _ _ _)).
  - reflexivity.
  - reflexivity.
  - reflexivity.
  - simpl. lia.
Defined.

(** ** The delete path, settled *)

(** Where [delete] ends up when both requests succeed. *)
Lemma delete_settles this k w s :
  w_fault w (SqlDelete k) = false →
  w_fault w (RedisDel [k]) = false →
  (2 ≤ length s)%nat →
  ∃ tr,
    run s (start w (Keystore.delete this k)) =
    State (World (delete k (w_sql w)) (delete k (w_redis w)) (w_fault w))
          tr [] (Some (Resolved tt)) ∧
    emitted tr = [EvDelete k SQL].
Proof.
  intros Hd Hr Hlen. schedule s Hlen.
  destruct this as [a b [|] t u ttl cl]; cbn in *.
  all: turns.
  all: rewrite run_quiescent by done; eexists; split; reflexivity.
Qed.

(** X10.  When both requests of [delete k] succeed, then in whatever order
    the servers answer, the call resolves, [k] is absent from the table
    and from the cache, and the one event emitted is the durable
    delete. *)
Theorem delete_removes_from_both_tiers this k w s :
  w_fault w (SqlDelete k) = false →
  w_fault w (RedisDel [k]) = false →
  (2 ≤ length s)%nat →
  outcome_of s w (Keystore.delete this k) = Some (Resolved tt) ∧
  w_sql (world_after s w (Keystore.delete this k)) !! k = None ∧
  w_redis (world_after s w (Keystore.delete this k)) !! k = None ∧
  emitted (trace_of s w (Keystore.delete this k)) = [EvDelete k SQL].
Proof.
  intros Hd Hr Hlen. unfold outcome_of, world_after, trace_of.
  destruct (delete_settles this k w s Hd Hr Hlen) as (tr & -> & Hev). cbn.
  by rewrite !lookup_delete_eq.
Qed.

Lemma delete_removes_from_both_tiers_witness :
  w_sql (world_after [1; 0]%nat
           (World {[ "k" := "v" ]} {[ "k" := ("v", Some 60) ]} no_fault)
           (Keystore.delete plain "k")) !! "k" = None ∧
  w_redis (world_after [1; 0]%nat
             (World {[ "k" := "v" ]} {[ "k" := ("v", Some 60) ]} no_fault)
             (Keystore.delete plain "k")) !! "k" = None.
Proof.
  pose proof (delete_removes_from_both_tiers plain "k"
                (World {[ "k" := "v" ]} {[ "k" := ("v", Some 60) ]} no_fault)
                [1; 0]%nat) as H.
  destruct H as (_ & Hs & Hr & _).
  - reflexivity.
  - reflexivity.
  - simpl. lia.
  - split; [exact Hs|exact Hr].
Defined.



(** ** The read path, settled *)

(** A miss on both tiers. *)
Lemma get_miss this k w s :
  w_redis w !! k = None →
  w_sql w !! k = None →
  w_fault w (RedisGet k) = false →
  w_fault w (SqlSelectValue k) = false →
  (2 ≤ length s)%nat →
  ∃ tr,
    run s (start w (Keystore.get this k)) = State w tr [] (Some (Resolved None)) ∧
    emitted tr = [EvGet k None REDIS; EvGet k None SQL].
Proof.
  intros Hc Hq Hg Hs Hlen. schedule s Hlen.
  destruct this as [a b [|] t u ttl cl]; cbn in *.
  all: turn; rewrite Hc; cbn.
  all: turn; rewrite Hq; cbn.
  all: rewrite run_quiescent by done; eexists; split; reflexivity.
Qed.



(** X13.  A cache hit stays in the cache.  The one request sent is the cache
    read, the table is not asked, both stores are left as they were, and
    the one event emitted carries the cached value. *)
Theorem get_hit_stays_in_cache this k v ttl w s :
  w_redis w !! k = Some (v, ttl) →
  v ≠ "" →
  w_fault w (RedisGet k) = false →
  (1 ≤ length s)%nat →
  world_after s w (Keystore.get this k) = w ∧
  emitted (trace_of s w (Keystore.get this k)) = [EvGet k (Some v) REDIS] ∧
  (∀ c, OIssue c ∈ trace_of s w (Keystore.get this k) → c = RedisGet k).
Proof.
  intros Hk Hv Hf Hlen. unfold world_after, trace_of. schedule s Hlen.
  apply truthy_str_nonempty in Hv.
  destruct this as [a b [|] t u e cl]; cbn in *.
  all: turn; rewrite Hk; cbn; rewrite Hv; cbn.
  all: rewrite run_quiescent by done; cbn.
  all: split; [done|]; split; [done|]; intros c Hc.
  all: repeat (apply elem_of_cons in Hc as [Hc|Hc]; [by simplify_eq|]).
  all: by apply elem_of_nil in Hc.
Qed.

Lemma get_hit_stays_in_cache_witness :
  emitted (trace_of [0%nat] (World {[ "a" := "durable" ]} {[ "a" := ("cached", None) ]} no_fault)
             (Keystore.get plain "a")) = [EvGet "a" (Some "cached") REDIS].
Proof.
  pose proof (get_hit_stays_in_cache plain "a" "cached" None
                (World {[ "a" := "durable" ]} {[ "a" := ("cached", None) ]} no_fault)
                [0%nat]) as H.
  destruct H as (_ & Hev & _).
  - vm_compute. reflexivity.
  - discriminate.
  - reflexivity.
  - simpl. lia.
  - exact Hev.
Defined.

(** How [get] ends when the cache read fails and the table answers. *)
Lemma get_cache_failure_outcome this k v w s :
  w_fault w (RedisGet k) = true →
  w_fault w (SqlSelectValue k) = false →
  w_sql w !! k = Some v →
  v ≠ "" →
  (2 ≤ length s)%nat →
  st_outcome (run s (start w (Keystore.get this k))) = Some (Resolved (Some v)) ∧
  OLog (LogError "request failed") ∈ st_trace (run s (start w (Keystore.get this k))).
Proof.
  intros Hg Hq Hv Hne Hlen.
  apply truthy_str_nonempty in Hne.
  destruct s as [|n1 [|n2 s]]; [simpl in Hlen; lia..|]. clear Hlen.
  destruct this as [a b [|] t u e cl]; cbn in *.
  all: turn; turn; rewrite Hv; cbn; rewrite Hne; cbn.
  all: split; [by rewrite run_orphans by (cbn; repeat constructor)|].
  all: eapply elem_of_prefix; [|apply run_trace]; cbn; in_trace.
Qed.

(** X14.  The cache is best effort on the read path.  When the cache read
    fails, the failure is logged and [get] answers from the table: it
    resolves with the stored value if that is non-empty, whatever happens
    to the cache write that follows. *)
Theorem get_survives_cache_failure this k v w s :
  w_fault w (RedisGet k) = true →
  w_fault w (SqlSelectValue k) = false →
  w_sql w !! k = Some v →
  v ≠ "" →
  (2 ≤ length s)%nat →
  outcome_of s w (Keystore.get this k) = Some (Resolved (Some v)) ∧
  OLog (LogError "request failed") ∈ trace_of s w (Keystore.get this k).
Proof. apply get_cache_failure_outcome. Qed.

Lemma get_survives_cache_failure_witness :
  outcome_of [0; 0; 0]%nat (World {[ "k" := "v" ]} ∅ redis_down) (Keystore.get plain "k")
  = Some (Resolved (Some "v")).
Proof.
  refine (proj1 (get_survives_cache_failure plain "k" "v"
                   (World {[ "k" := "v" ]} ∅ redis_down) [0; 0; 0]%nat _ _ _ _ _)).
  - reflexivity.
  - reflexivity.
  - vm_compute. reflexivity.
  - discriminate.
  - simpl. lia.
Defined.

(** ** The full flush *)

Lemma flush_all_settles this w s :
  w_fault w RedisFlushAll = false →
  (1 ≤ length s)%nat →
  ∃ tr,
    run s (start w (Redis.flush this ALL)) =
    State (World (w_sql w) ∅ (w_fault w)) tr [] (Some (Resolved "OK")).
Proof.
  intros Hf Hlen. schedule s Hlen. cbn.
  turn. rewrite run_quiescent by done. by eexists.
Qed.

(** X15.  The full flush.  When [FLUSHALL] succeeds, [flush "ALL"] resolves
    with "OK" and leaves the cache empty; so does the job of the timer
    that [autoFlush] registers. *)
Theorem flush_all_empties_cache this w s :
  w_fault w RedisFlushAll = false →
  (1 ≤ length s)%nat →
  outcome_of s w (Redis.flush this ALL) = Some (Resolved "OK") ∧
  w_redis (world_after s w (Redis.flush this ALL)) = ∅ ∧
  (∀ tm, autoFlush this = Some tm → w_redis (world_after s w (job tm)) = ∅).
Proof.
  intros Hf Hlen. unfold outcome_of, world_after. split; [|split].
  - by destruct (flush_all_settles this w s Hf Hlen) as [tr ->].
  - by destruct (flush_all_settles this w s Hf Hlen) as [tr ->].
  - intros tm Htm. rewrite (autoFlush_job _ _ Htm). schedule s Hlen.
    destruct this as [a b [|] t u e cl]; cbn.
    all: turn; by rewrite run_quiescent.
Qed.

Lemma flush_all_empties_cache_witness :
  outcome_of [0%nat] (World ∅ temp_cache no_fault) (Redis.flush plain ALL)
  = Some (Resolved "OK") ∧
  w_redis (world_after [0%nat] (World ∅ temp_cache no_fault) (Redis.flush plain ALL)) = ∅.
Proof.
  pose proof (flush_all_empties_cache plain (World ∅ temp_cache no_fault) [0%nat]) as H.
  destruct H as (Ho & Hc & _).
  - reflexivity.
  - simpl. lia.
  - split; [exact Ho|exact Hc].
Defined.

(** X16.  A failed full flush is not caught.  [flush "ALL"] rejects, nothing
    is logged, the cache is what it was; in the timer job, where nobody
    holds the promise, the failure ends as an unhandled rejection. *)
Theorem flush_all_failure_escapes this w s :
  w_fault w RedisFlushAll = true →
  (1 ≤ length s)%nat →
  outcome_of s w (Redis.flush this ALL) = Some (Threw "request failed") ∧
  w_redis (world_after s w (Redis.flush this ALL)) = w_redis w ∧
  (∀ l, OLog l ∉ trace_of s w (Redis.flush this ALL)) ∧
  (∀ tm, autoFlush this = Some tm →
         OUnhandled "request failed" ∈ trace_of s w (job tm)).
Proof.
  intros Hf Hlen. unfold outcome_of, world_after, trace_of. schedule s Hlen.
  split; [|split; [|split]].
  1-3: cbn; turn; rewrite run_quiescent by done; cbn; try done.
  - intros l. not_in_trace.
  - intros tm Htm. rewrite (autoFlush_job _ _ Htm).
    destruct this as [a b [|] t u e cl]; cbn.
    all: turn; rewrite run_quiescent by done; cbn; in_trace.
Qed.

Lemma flush_all_failure_escapes_witness :
  outcome_of [0%nat] (World ∅ temp_cache redis_down) (Redis.flush plain ALL)
  = Some (Threw "request failed").
Proof.
  refine (proj1 (flush_all_failure_escapes plain (World ∅ temp_cache redis_down)
                   [0%nat] _ _)).
  - reflexivity.
  - simpl. lia.
Defined.

(** ** The temporary-key flush, seen by its caller *)

(** X17.  [flush "TEMP"] tells its caller nothing: it resolves with "ERR" at
    once and in every run, also in those in which the keys get deleted. *)
Theorem flush_temp_always_answers_err this w s :
  outcome_of s w (Redis.flush this TEMP) = Some (Resolved "ERR").
Proof.
  unfold outcome_of. rewrite run_orphans; [done|]. cbn. repeat constructor.
Qed.

(** X18.  When [KEYS] fails, the [try] around it catches nothing: the
    failure is an unhandled rejection, no error is logged, and the cache
    is what it was. *)
Theorem flush_temp_keys_failure_uncaught this w s :
  w_fault w (RedisKeys "temp:*") = true →
  (1 ≤ length s)%nat →
  trace_of s w (Redis.flush this TEMP)
  = [ OIssue (RedisKeys "temp:*");
      OSettle (RedisKeys "temp:*") (Rejected "request failed");
      OUnhandled "request failed" ] ∧
  world_after s w (Redis.flush this TEMP) = w.
Proof.
  intros Hf Hlen. unfold world_after, trace_of. schedule s Hlen. cbn.
  turn. by rewrite run_quiescent.
Qed.

Lemma flush_temp_keys_failure_uncaught_witness :
  world_after [0%nat] (World ∅ temp_cache redis_down) (Redis.flush plain TEMP)
  = World ∅ temp_cache redis_down.
Proof.
  refine (proj2 (flush_temp_keys_failure_uncaught plain (World ∅ temp_cache redis_down)
                   [0%nat] _ _)).
  - reflexivity.
  - simpl. lia.
Defined.

(** ** The adapters *)

(** X19.  [getAllKeys] resolves with the keys of the table, each once, and
    emits no event. *)
Theorem getAllKeys_lists_the_table this w s :
  w_fault w SqlSelectKeys = false →
  (1 ≤ length s)%nat →
  ∃ ks,
    outcome_of s w (Sql.getAllKeys this) = Some (Resolved ks) ∧
    NoDup ks ∧
    (∀ k, k ∈ ks ↔ is_Some (w_sql w !! k)) ∧
    emitted (trace_of s w (Sql.getAllKeys this)) = [].
Proof.
  intros Hf Hlen. unfold outcome_of, trace_of. schedule s Hlen. cbn.
  turn. rewrite run_quiescent by done. cbn.
  exists (map_keys (w_sql w)). split; [done|]. split; [|split; [|done]].
  - apply NoDup_fst_map_to_list.
  - apply elem_of_map_keys.
Qed.

Lemma getAllKeys_lists_the_table_witness :
  ∃ ks,
    outcome_of [0%nat] (World {[ "a" := "1"; "b" := "2" ]} ∅ no_fault)
      (Sql.getAllKeys plain) = Some (Resolved ks) ∧
    "a" ∈ ks ∧ "b" ∈ ks.
Proof.
  destruct (getAllKeys_lists_the_table plain
              (World {[ "a" := "1"; "b" := "2" ]} ∅ no_fault) [0%nat])
    as (ks & Ho & _ & Hin & _).
  - reflexivity.
  - simpl. lia.
  - exists ks. split; [exact Ho|].
    split; apply Hin; eexists; vm_compute; reflexivity.
Defined.

(** What the adapters read and write, one request each. *)
Lemma sql_set_settles this k v w s :
  w_fault w (SqlUpsert k v) = false →
  (1 ≤ length s)%nat →
  ∃ tr, run s (start w (Sql.set this k v))
        = State (World (<[k := v]> (w_sql w)) (w_redis w) (w_fault w)) tr []
            (Some (Resolved tt)).
Proof.
  intros Hf Hlen. schedule s Hlen. cbn. turn. rewrite run_quiescent by done.
  by eexists.
Qed.

Lemma sql_get_settles this k w s :
  w_fault w (SqlSelectValue k) = false →
  (1 ≤ length s)%nat →
  ∃ tr, run s (start w (Sql.get this k)) = State w tr [] (Some (Resolved (w_sql w !! k))).
Proof.
  intros Hf Hlen. schedule s Hlen. cbn. turn. rewrite run_quiescent by done.
  destruct (w_sql w !! k); by eexists.
Qed.

Lemma redis_get_settles this k w s :
  w_fault w (RedisGet k) = false →
  (1 ≤ length s)%nat →
  ∃ tr, run s (start w (Redis.get this k))
        = State w tr [] (Some (Resolved (fst <$> w_redis w !! k))).
Proof.
  intros Hf Hlen. schedule s Hlen.
  destruct this as [a b [|] t u e cl]; cbn.
  all: turn; rewrite run_quiescent by done; by eexists.
Qed.

(** X20.  The SQL adapter round-trips every value, the empty string
    included: after [sql.set k v], [sql.get k] resolves with [v]. *)
Theorem sql_adapter_round_trip this k v w s1 s2 :
  w_fault w (SqlUpsert k v) = false →
  w_fault w (SqlSelectValue k) = false →
  (1 ≤ length s1)%nat →
  (1 ≤ length s2)%nat →
  outcome_of s2 (world_after s1 w (Sql.set this k v)) (Sql.get this k)
  = Some (Resolved (Some v)).
Proof.
  intros Hu Hq H1 H2. unfold outcome_of, world_after.
  destruct (sql_set_settles this k v w s1 Hu H1) as [tr ->]. cbn [st_world].
  destruct (sql_get_settles this k
              (World (<[k := v]> (w_sql w)) (w_redis w) (w_fault w)) s2)
    as [tr' ->]; try done. cbn. by rewrite lookup_insert_eq.
Qed.

Lemma sql_adapter_round_trip_witness :
  outcome_of [0%nat] (world_after [0%nat] (World ∅ ∅ no_fault) (Sql.set plain "k" ""))
    (Sql.get plain "k") = Some (Resolved (Some "")).
Proof.
  apply (sql_adapter_round_trip plain "k" "" (World ∅ ∅ no_fault)).
  - reflexivity.
  - reflexivity.
  - simpl. lia.
  - simpl. lia.
Defined.

(** Where the cache adapter's [set] ends up when its requests succeed. *)
Lemma redis_set_settles this k v expire w s :
  w_fault w (RedisSet k v) = false →
  (∀ n, expire = Some n → w_fault w (RedisExpire k n) = false) →
  (2 ≤ length s)%nat →
  ∃ tr,
    run s (start w (Redis.set this k v expire)) =
    State (World (w_sql w)
             match expire with
             | Some n =>
                 if n =? 0 then <[k := (v, None)]> (w_redis w)
                 else if n <=? 0 then delete k (w_redis w)
                 else <[k := (v, Some n)]> (w_redis w)
             | None => <[k := (v, None)]> (w_redis w)
             end
             (w_fault w))
          tr [] (Some (Resolved true)).
Proof.
  intros Hf Hx Hlen. schedule s Hlen.
  destruct expire as [e|].
  - specialize (Hx e eq_refl).
    destruct (Z.eqb_spec e 0) as [->|Hnz].
    + destruct this as [a b [|] t u x cl]; cbn.
      all: turn; rewrite run_quiescent by done; by eexists.
    + assert (truthy_num e = true) as Ht.
      { unfold truthy_num. by destruct (Z.eqb_spec e 0). }
      destruct (Z.leb_spec e 0) as [Hle|Hgt];
        destruct this as [a b [|] t u x cl]; cbn.
      all: turn; rewrite Ht; cbn; turn; rewrite lookup_insert_eq; cbn.
      all: rewrite ?(proj2 (Z.leb_le e 0)), ?(proj2 (Z.leb_gt e 0)) by lia; cbn.
      all: rewrite run_quiescent by done.
      all: rewrite ?delete_insert_eq, ?insert_insert_eq; by eexists.
  - destruct this as [a b [|] t u x cl]; cbn.
    all: turn; rewrite run_quiescent by done; by eexists.
Qed.

(** X21.  The cache adapter's [set] without an expiry, or with expiry 0,
    stores the value with no expiry, dropping the expiry the key had, and
    resolves with [true]; [get] then resolves with the value. *)
Theorem redis_set_without_expiry this k v expire w s1 s2 :
  expire = None ∨ expire = Some 0 →
  w_fault w (RedisSet k v) = false →
  w_fault w (RedisGet k) = false →
  (1 ≤ length s1)%nat →
  (1 ≤ length s2)%nat →
  outcome_of s1 w (Redis.set this k v expire) = Some (Resolved true) ∧
  w_redis (world_after s1 w (Redis.set this k v expire)) !! k = Some (v, None) ∧
  outcome_of s2 (world_after s1 w (Redis.set this k v expire)) (Redis.get this k)
  = Some (Resolved (Some v)).
Proof.
  intros Hexp Hf Hg H1 H2. unfold outcome_of, world_after.
  assert (∃ tr, run s1 (start w (Redis.set this k v expire))
                = State (World (w_sql w) (<[k := (v, None)]> (w_redis w)) (w_fault w))
                    tr [] (Some (Resolved true))) as [tr ->].
  { schedule s1 H1.
    destruct Hexp as [-> | ->]; destruct this as [a b [|] t u x cl]; cbn.
    all: turn; rewrite run_quiescent by done; by eexists. }
  cbn [st_world st_outcome].
  destruct (redis_get_settles this k
              (World (w_sql w) (<[k := (v, None)]> (w_redis w)) (w_fault w)) s2)
    as [tr' ->]; try done. cbn. by rewrite !lookup_insert_eq.
Qed.

Lemma redis_set_without_expiry_witness :
  w_redis (world_after [0%nat] (World ∅ {[ "k" := ("old", Some 60) ]} no_fault)
             (Redis.set plain "k" "new" (Some 0))) !! "k" = Some ("new", None).
Proof.
  refine (proj1 (proj2 (redis_set_without_expiry plain "k" "new" (Some 0)
                          (World ∅ {[ "k" := ("old", Some 60) ]} no_fault)
                          [0%nat] [0%nat] _ _ _ _ _))).
  - right. reflexivity.
  - reflexivity.
  - reflexivity.
  - simpl. lia.
  - simpl. lia.
Defined.

(** X22.  When [SET] succeeds and [EXPIRE] fails, the cache adapter's [set]
    resolves with [false] although the value is stored, without expiry,
    and its "set" event has been emitted. *)
Theorem redis_set_expire_failure this k v n w s :
  n ≠ 0 →
  w_fault w (RedisSet k v) = false →
  w_fault w (RedisExpire k n) = true →
  (2 ≤ length s)%nat →
  outcome_of s w (Redis.set this k v (Some n)) = Some (Resolved false) ∧
  w_redis (world_after s w (Redis.set this k v (Some n))) !! k = Some (v, None) ∧
  emitted (trace_of s w (Redis.set this k v (Some n))) = [EvSet k v REDIS] ∧
  OLog (LogError "request failed") ∈ trace_of s w (Redis.set this k v (Some n)).
Proof.
  intros Hnz Hf Hx Hlen. unfold outcome_of, world_after, trace_of. schedule s Hlen.
  assert (truthy_num n = true) as Ht.
  { unfold truthy_num. by destruct (Z.eqb_spec n 0). }
  destruct this as [a b [|] t u x cl]; cbn.
  all: turn; rewrite Ht; cbn; turn.
  all: rewrite run_quiescent by done; cbn; rewrite lookup_insert_eq.
  all: split; [done|]; split; [done|]; split; [done|]; in_trace.
Qed.

Lemma redis_set_expire_failure_witness :
  outcome_of [0; 0]%nat (World ∅ ∅ (fails_on (RedisExpire "k" 60)))
    (Redis.set plain "k" "v" (Some 60)) = Some (Resolved false) ∧
  w_redis (world_after [0; 0]%nat (World ∅ ∅ (fails_on (RedisExpire "k" 60)))
             (Redis.set plain "k" "v" (Some 60))) !! "k" = Some ("v", None).
Proof.
  pose proof (redis_set_expire_failure plain "k" "v" 60
                (World ∅ ∅ (fails_on (RedisExpire "k" 60))) [0; 0]%nat) as H.
  destruct H as (Ho & Hc & _).
  - discriminate.
  - reflexivity.
  - reflexivity.
  - simpl. lia.
  - split; [exact Ho|exact Hc].
Defined.

(** ** How the operations compose *)

(** X23.  A deleted key is gone.  After [set k v] and then [delete k], each
    left to settle, [get k] resolves with [null]. *)
Theorem set_delete_get this k v w s1 s2 s3 :
  w_fault w (RedisSet k v) = false →
  w_fault w (RedisExpire k (defaultExpire this)) = false →
  w_fault w (SqlDelete k) = false →
  w_fault w (RedisDel [k]) = false →
  w_fault w (RedisGet k) = false →
  w_fault w (SqlSelectValue k) = false →
  0 < defaultExpire this →
  (3 ≤ length s1)%nat → (2 ≤ length s2)%nat → (2 ≤ length s3)%nat →
  outcome_of s3
    (world_after s2 (world_after s1 w (Keystore.set this k v)) (Keystore.delete this k))
    (Keystore.get this k)
  = Some (Resolved None).
Proof.
  intros Hr He Hd Hx Hg Hq Hpos H1 H2 H3. unfold outcome_of, world_after.
  destruct (set_settles this k v w s1 Hr He Hpos H1) as (tr1 & -> & _).
  cbn [st_world].
  set (w1 := World _ _ _).
  destruct (delete_settles this k w1 s2) as (tr2 & -> & _); try done.
  cbn [st_world].
  set (w2 := World _ _ _).
  destruct (get_miss this k w2 s3) as (tr3 & -> & _); try done.
  - apply lookup_delete_eq.
  - apply lookup_delete_eq.
Qed.

Lemma set_delete_get_witness :
  outcome_of [0; 0]%nat
    (world_after [0; 0]%nat
       (world_after [0; 0; 0]%nat (World ∅ ∅ no_fault) (Keystore.set plain "k" "v"))
       (Keystore.delete plain "k"))
    (Keystore.get plain "k")
  = Some (Resolved None).
Proof.
  apply (set_delete_get plain "k" "v" (World ∅ ∅ no_fault)).
  - reflexivity.
  - reflexivity.
  - reflexivity.
  - reflexivity.
  - reflexivity.
  - reflexivity.
  - reflexivity.
  - simpl. lia.
  - simpl. lia.
  - simpl. lia.
Defined.

(** X24.  The table outlives the cache.  After [set k v] with a non-empty
    [v] and then a full flush, each left to settle, [get k] resolves with
    [v] and the cache holds [v] again, with the default expiry. *)
Theorem set_flush_get this k v w s1 s2 s3 :
  v ≠ "" →
  w_fault w (SqlUpsert k v) = false →
  w_fault w (RedisSet k v) = false →
  w_fault w (RedisExpire k (defaultExpire this)) = false →
  w_fault w RedisFlushAll = false →
  w_fault w (RedisGet k) = false →
  w_fault w (SqlSelectValue k) = false →
  0 < defaultExpire this →
  (3 ≤ length s1)%nat → (1 ≤ length s2)%nat → (4 ≤ length s3)%nat →
  outcome_of s3
    (world_after s2 (world_after s1 w (Keystore.set this k v)) (Redis.flush this ALL))
    (Keystore.get this k)
  = Some (Resolved (Some v)) ∧
  w_redis
    (world_after s3
       (world_after s2 (world_after s1 w (Keystore.set this k v)) (Redis.flush this ALL))
       (Keystore.get this k)) !! k
  = Some (v, Some (defaultExpire this)).
Proof.
  intros Hv Hu Hr He Hf Hg Hq Hpos H1 H2 H3. unfold outcome_of, world_after.
  destruct (set_settles this k v w s1 Hr He Hpos H1) as (tr1 & -> & _).
  cbn [st_world]. rewrite Hu.
  set (w1 := World _ _ _).
  destruct (flush_all_settles this w1 s2) as [tr2 ->]; try done.
  cbn [st_world].
  set (w2 := World _ _ _).
  destruct (get_read_through this k v w2 s3) as [tr3 ->]; try done.
  all: cbn; rewrite ?lookup_insert_eq; auto using truthy_str_nonempty.
Qed.

Lemma set_flush_get_witness :
  outcome_of [0; 0; 0; 0]%nat
    (world_after [0%nat]
       (world_after [0; 0; 0]%nat (World ∅ ∅ no_fault) (Keystore.set plain "k" "v"))
       (Redis.flush plain ALL))
    (Keystore.get plain "k")
  = Some (Resolved (Some "v")).
Proof.
  refine (proj1 (set_flush_get plain "k" "v" (World ∅ ∅ no_fault)
                   [0; 0; 0]%nat [0%nat] [0; 0; 0; 0]%nat _ _ _ _ _ _ _ _ _ _ _)).
  - discriminate.
  - reflexivity.
  - reflexivity.
  - reflexivity.
  - reflexivity.
  - reflexivity.
  - reflexivity.
  - reflexivity.
  - simpl. lia.
  - simpl. lia.
  - simpl. lia.
Defined.

(** X25.  With the cache down the keystore still round-trips.  When every
    Redis request fails and the SQL requests succeed, [set k v] and then
    [get k] resolves with [v], for a non-empty [v]. *)
Theorem round_trip_with_cache_down this k v w s1 s2 :
  v ≠ "" →
  (∀ c, cmd_tier c = REDIS → w_fault w c = true) →
  w_fault w (SqlUpsert k v) = false →
  w_fault w (SqlSelectValue k) = false →
  (2 ≤ length s1)%nat → (2 ≤ length s2)%nat →
  outcome_of s2 (world_after s1 w (Keystore.set this k v)) (Keystore.get this k)
  = Some (Resolved (Some v)).
Proof.
  intros Hv Hdown Hu Hq H1 H2. unfold outcome_of, world_after.
  destruct (set_cache_failure_settles this k v w s1) as (tr & -> & _); auto.
  cbn [st_world].
  apply get_cache_failure_outcome; cbn; auto.
  apply lookup_insert_eq.
Qed.

Lemma round_trip_with_cache_down_witness :
  outcome_of [0; 0; 0]%nat
    (world_after [0; 0]%nat (World ∅ ∅ redis_down) (Keystore.set plain "k" "v"))
    (Keystore.get plain "k")
  = Some (Resolved (Some "v")).
Proof.
  apply (round_trip_with_cache_down plain "k" "v" (World ∅ ∅ redis_down)).
  - discriminate.
  - intros c Hc. unfold redis_down. cbn. by apply bool_decide_eq_true.
  - reflexivity.
  - reflexivity.
  - simpl. lia.
  - simpl. lia.
Defined.

(** X26.  A cache delete that fails leaves a stale entry behind: the table
    no longer holds the key, the cache still does, and the next [get]
    is answered from the cache and never asks the table. *)
Theorem failed_cache_delete_leaves_stale_entry this k v ttl w s1 s2 :
  w_redis w !! k = Some (v, ttl) →
  v ≠ "" →
  w_fault w (SqlDelete k) = false →
  w_fault w (RedisDel [k]) = true →
  w_fault w (RedisGet k) = false →
  (2 ≤ length s1)%nat → (1 ≤ length s2)%nat →
  w_sql (world_after s1 w (Keystore.delete this k)) !! k = None ∧
  w_redis (world_after s1 w (Keystore.delete this k)) !! k = Some (v, ttl) ∧
  outcome_of s2 (world_after s1 w (Keystore.delete this k)) (Keystore.get this k)
  = Some (Resolved (Some k)).
Proof.
  intros Hk Hv Hd Hx Hg H1 H2. unfold outcome_of, world_after.
  assert (∃ tr, run s1 (start w (Keystore.delete this k))
                = State (World (delete k (w_sql w)) (w_redis w) (w_fault w)) tr []
                    (Some (Resolved tt))) as [tr ->].
  { schedule s1 H1. destruct this as [a b [|] t u x cl]; cbn.
    all: turns; rewrite run_quiescent by done; by eexists. }
  cbn [st_world]. set (w1 := World _ _ _).
  destruct (get_hit this k v ttl w1 s2) as [tr' ->];
    auto using truthy_str_nonempty.
  cbn. by rewrite lookup_delete_eq.
Qed.

Lemma failed_cache_delete_leaves_stale_entry_witness :
  outcome_of [0%nat]
    (world_after [0; 0]%nat
       (World {[ "k" := "v" ]} {[ "k" := ("v", None) ]} (fails_on (RedisDel ["k"])))
       (Keystore.delete plain "k"))
    (Keystore.get plain "k")
  = Some (Resolved (Some "k")).
Proof.
  refine (proj2 (proj2 (failed_cache_delete_leaves_stale_entry plain "k" "v" None
                   (World {[ "k" := "v" ]} {[ "k" := ("v", None) ]}
                          (fails_on (RedisDel ["k"])))
                   [0; 0]%nat [0%nat] _ _ _ _ _ _ _))).
  - vm_compute. reflexivity.
  - discriminate.
  - reflexivity.
  - reflexivity.
  - reflexivity.
  - simpl. lia.
  - simpl. lia.
Defined.

(** ** Configuration and start-up *)

(** What [doConfig] and the constructor leave in the instance. *)
Lemma constructor_fields r u cfg this :
  constructor r u cfg = inr this →
  r = Some (client this) ∧ u = Some (sqlURI this) ∧
  client this ≠ "" ∧ sqlURI this ≠ "" ∧
  this = {| redisAutoFlushInterval := redisAutoFlushInterval (doConfig cfg initial);
            redisAutoTempFlushInterval := redisAutoTempFlushInterval (doConfig cfg initial);
            debug := debug (doConfig cfg initial);
            sqlTable := sqlTable (doConfig cfg initial);
            sqlURI := sqlURI this;
            defaultExpire := expire_or_default cfg;
            client := client this |}.
Proof.
  unfold constructor, if_truthy.
  destruct r as [[|c r]|]; try done. destruct u as [[|d u]|]; try done. cbn.
  by intros [= <-].
Qed.

(** X27.  The settings of a constructed instance.  Both addresses are the
    non-empty strings that were passed; the table is the configured name,
    or "storekey" when that is missing or empty; [debug] is on only when
    configured [true]. *)
Theorem constructor_settings r u cfg this :
  constructor r u cfg = inr this →
  r = Some (client this) ∧ u = Some (sqlURI this) ∧
  client this ≠ "" ∧ sqlURI this ≠ "" ∧
  sqlTable this =
    match opt_field cfg Config.sqlTable with
    | Some "" | None => "storekey"
    | Some t => t
    end ∧
  (debug this = true ↔ opt_field cfg Config.debug = Some true).
Proof.
  intros Hc. destruct (constructor_fields _ _ _ _ Hc) as (Hr & Hu & Hr' & Hu' & Hthis).
  repeat (split; [done|]). rewrite Hthis. cbn. split.
  - by destruct (opt_field cfg Config.sqlTable) as [[|c t]|].
  - destruct (opt_field cfg Config.debug) as [[|]|]; cbn; split; done.
Qed.

Lemma constructor_settings_witness :
  sqlTable plain = "storekey" ∧ (debug plain = true ↔ Some false = Some true).
Proof.
  pose proof (constructor_settings (Some "redis://localhost") (Some "mysql://localhost")
                (Some (Config.Make None None (Some false) (Some "") None)) plain) as H.
  destruct H as (_ & _ & _ & _ & Ht & Hd).
  - reflexivity.
  - split; [exact Ht|exact Hd].
Defined.

(** [doConfig] takes an interval over unless it is missing or 0. *)
Lemma doConfig_interval (x : option Z) n :
  (if truthy_optnum x then x else None) = Some n ∧ n ≠ 0 ∧ n ≠ -1 ↔
  x = Some n ∧ n ≠ 0 ∧ n ≠ -1.
Proof.
  unfold truthy_optnum, truthy_num. destruct x as [m|]; [|done].
  destruct (Z.eqb_spec m 0) as [->|H0]; cbn; [|done].
  split; [by intros (? & _)|]. intros ([= <-] & Hn & _). by destruct Hn.
Qed.

(** The call of [setInterval] each of the two functions makes: none when
    the interval is unset, 0 or -1, else one with the interval as delay. *)
Lemma autoFlush_timer this tm :
  autoFlush this = Some tm ↔
  ∃ n, redisAutoFlushInterval this = Some n ∧ n ≠ 0 ∧ n ≠ -1 ∧
       tm = Timer n (when (debug this) (log (LogInfo "CHORE: FLUSH ALL KEYS [REDIS]"));;
                     detach (Redis.flush this ALL)).
Proof.
  unfold autoFlush, truthy_num.
  destruct (redisAutoFlushInterval this) as [m|].
  - destruct (Z.eqb_spec m 0) as [->|H0]; cbn.
    + split; [done|]. intros (n & [= <-] & Hn & _). by destruct Hn.
    + destruct (Z.eqb_spec m (-1)) as [->|H1].
      * split; [done|]. intros (n & [= <-] & _ & Hn & _). by destruct Hn.
      * split.
        -- intros [= <-]. by exists m.
        -- by intros (n & [= <-] & _ & _ & ->).
  - split; [done|]. by intros (n & ? & _).
Qed.

Lemma autoTempFlush_timer this tm :
  (autoTempFlush this).2 = Some tm ↔
  ∃ n, redisAutoTempFlushInterval this = Some n ∧ n ≠ 0 ∧ n ≠ -1 ∧
       tm = Timer n (detach (Redis.flush this TEMP)).
Proof.
  unfold autoTempFlush, truthy_num.
  destruct (redisAutoTempFlushInterval this) as [m|].
  - destruct (Z.eqb_spec m 0) as [->|H0]; cbn.
    + split; [done|]. intros (n & [= <-] & Hn & _). by destruct Hn.
    + destruct (Z.eqb_spec m (-1)) as [->|H1]; cbn.
      * split; [done|]. intros (n & [= <-] & _ & Hn & _). by destruct Hn.
      * split.
        -- intros [= <-]. by exists m.
        -- by intros (n & [= <-] & _ & _ & ->).
  - split; [done|]. by intros (n & ? & _).
Qed.

(** The shape of what [init] does: debug lines, then either the error of
    the step that failed, or "ready" and the timers. *)
Definition is_boot_info (o : boot_obs) : Prop := ∃ m, o = BLog (LogInfo m).

Lemma boot_debug_info this msg : Forall is_boot_info (boot_debug this msg).
Proof.
  unfold boot_debug. destruct (debug this); repeat constructor. by eexists.
Qed.

Lemma autoTempFlush_log_info this : Forall is_boot_info (BLog <$> (autoTempFlush this).1).
Proof.
  unfold autoTempFlush.
  destruct (redisAutoTempFlushInterval this) as [n|]; [|constructor].
  destruct (truthy_num n); [|constructor]. destruct (n =? -1); [constructor|].
  destruct (debug this); repeat constructor. by eexists.
Qed.

Lemma init_shape this fails :
  ∃ pre, Forall is_boot_info pre ∧
    (((∃ st, fails st = true) ∧
      init this fails = pre ++ [BLog (LogError "request failed")]) ∨
     ((∀ st, fails st = false) ∧
      init this fails = pre ++ BReady :: (BLog <$> (autoTempFlush this).1) ++
                        boot_timer (autoTempFlush this).2 ++ boot_timer (autoFlush this))).
Proof.
  unfold init, boot_await.
  set (d1 := boot_debug this "CONNECTING TO REDIS...").
  set (d2 := boot_debug this "CONNECTED TO REDIS!").
  set (d3 := boot_debug this "CONNECTING TO SQL...").
  set (d4 := boot_debug this "CONNECTED TO SQL!").
  assert (Forall is_boot_info d1 ∧ Forall is_boot_info d2 ∧
          Forall is_boot_info d3 ∧ Forall is_boot_info d4) as (F1 & F2 & F3 & F4)
    by (repeat split; apply boot_debug_info).
  destruct (fails RedisConnect) eqn:H1.
  { exists d1. split; [done|]. left. split; [by exists RedisConnect|done]. }
  destruct (fails SqlCreateConnection) eqn:H2.
  { exists (d1 ++ d2 ++ d3). split; [by rewrite !Forall_app|]. left.
    split; [by exists SqlCreateConnection|]. by rewrite <- !app_assoc. }
  destruct (fails SqlConnect) eqn:H3.
  { exists (d1 ++ d2 ++ d3). split; [by rewrite !Forall_app|]. left.
    split; [by exists SqlConnect|]. by rewrite <- !app_assoc. }
  destruct (fails SqlCreateTable) eqn:H4.
  { exists (d1 ++ d2 ++ d3 ++ d4). split; [by rewrite !Forall_app|]. left.
    split; [by exists SqlCreateTable|]. by rewrite <- !app_assoc. }
  exists (d1 ++ d2 ++ d3 ++ d4). split; [by rewrite !Forall_app|]. right. split.
  - by intros [].
  - by rewrite <- !app_assoc.
Qed.

Lemma not_boot_info (pre : list boot_obs) (o : boot_obs) :
  Forall is_boot_info pre → (∀ m, o ≠ BLog (LogInfo m)) → o ∉ pre.
Proof.
  intros Hpre Ho Hin. rewrite Forall_forall in Hpre.
  destruct (Hpre _ Hin) as [m ->]. by apply (Ho m).
Qed.

Lemma elem_of_boot_timer (t : option timer) (o : boot_obs) :
  o ∈ boot_timer t ↔ ∃ tm, t = Some tm ∧ o = BInterval tm.
Proof.
  destruct t as [tm|]; cbn.
  - rewrite list_elem_of_singleton. split; [intros ->; by eexists|].
    by intros (tm' & [= <-] & ->).
  - split; [by intros ?%elem_of_nil|]. by intros (tm & ? & _).
Qed.

(** The calls of [setInterval] that [init] makes. *)
Lemma init_timers this fails tm :
  BInterval tm ∈ init this fails ↔
  (∀ st, fails st = false) ∧
  ((autoTempFlush this).2 = Some tm ∨ autoFlush this = Some tm).
Proof.
  destruct (init_shape this fails) as (pre & Hpre & [[[st Hst] ->]|[Hok ->]]).
  - split.
    + rewrite elem_of_app, list_elem_of_singleton. intros [Hin|?]; [|done].
      by apply (not_boot_info pre (BInterval tm)) in Hin.
    + intros [Hok _]. specialize (Hok st). congruence.
  - rewrite elem_of_app, elem_of_cons, !elem_of_app, !elem_of_boot_timer. split.
    + intros [Hin|[?|[Hin|[(t & Ht & [= <-])|(t & Ht & [= <-])]]]];
        try done; auto.
      * by apply (not_boot_info pre (BInterval tm)) in Hin.
      * by apply (not_boot_info _ (BInterval tm) (autoTempFlush_log_info this)) in Hin.
    + intros [_ [Ht|Ht]]; do 3 right; [left|right]; by exists tm.
Qed.

(** X28.  Which calls of [setInterval] a constructed instance makes.
    [init] hands a maintenance job to [setInterval] exactly when all four
    start-up steps succeed and the interval of that job is configured and
    is neither 0 nor -1; the delay it passes is the configured number and
    the job is the flush of that kind.  (How the runtime treats a delay
    outside its range is not part of the embedding.) *)
Theorem timers_follow_config r u cfg this fails tm :
  constructor r u cfg = inr this →
  (BInterval tm ∈ init this fails ↔
   (∀ st, fails st = false) ∧
   ((∃ n, opt_field cfg Config.redisAutoTempFlushInterval = Some n ∧ n ≠ 0 ∧ n ≠ -1 ∧
          tm = Timer n (detach (Redis.flush this TEMP))) ∨
    (∃ n, opt_field cfg Config.redisAutoFlushInterval = Some n ∧ n ≠ 0 ∧ n ≠ -1 ∧
          tm = Timer n
                 (when (debug this) (log (LogInfo "CHORE: FLUSH ALL KEYS [REDIS]"));;
                  detach (Redis.flush this ALL))))).
Proof.
  intros Hc. destruct (constructor_fields _ _ _ _ Hc) as (_ & _ & _ & _ & Hthis).
  assert (∀ n, redisAutoFlushInterval this = Some n ∧ n ≠ 0 ∧ n ≠ -1 ↔
               opt_field cfg Config.redisAutoFlushInterval = Some n ∧ n ≠ 0 ∧ n ≠ -1)
    as Hall by (intros n; rewrite Hthis; apply doConfig_interval).
  assert (∀ n, redisAutoTempFlushInterval this = Some n ∧ n ≠ 0 ∧ n ≠ -1 ↔
               opt_field cfg Config.redisAutoTempFlushInterval = Some n ∧ n ≠ 0 ∧ n ≠ -1)
    as Htemp by (intros n; rewrite Hthis; apply doConfig_interval).
  rewrite init_timers, autoTempFlush_timer, autoFlush_timer.
  split; intros [Hok Ht]; (split; [done|]).
  - destruct Ht as [(n & Hn & H0 & H1 & ->)|(n & Hn & H0 & H1 & ->)]; [left|right];
      exists n; (split; [|done]).
    + by apply (Htemp n).
    + by apply (Hall n).
  - destruct Ht as [(n & Hn & H0 & H1 & ->)|(n & Hn & H0 & H1 & ->)]; [left|right];
      exists n; (split; [|done]).
    + by apply (Htemp n).
    + by apply (Hall n).
Qed.

Lemma timers_follow_config_witness :
  BInterval (Timer 5000 (detach (Redis.flush verbose TEMP)))
    ∈ init verbose (λ _, false).
Proof.
  refine (proj2 (timers_follow_config (Some "redis://localhost")
                   (Some "mysql://localhost")
                   (Some (Config.Make (Some 60000) (Some 5000) (Some true)
                            (Some "kv") (Some 400)))
                   verbose (λ _, false)
                   (Timer 5000 (detach (Redis.flush verbose TEMP))) _) _).
  - reflexivity.
  - split; [reflexivity|]. left. exists 5000.
    split; [reflexivity|]. split; [discriminate|]. split; [discriminate|reflexivity].
Defined.

(** X29.  "ready" means everything is up.  [init] emits "ready" exactly when
    the Redis connection, the MySQL connection, its handshake and the
    table creation all succeed; it then logs no error and registers the
    timers of [autoTempFlush] and [autoFlush], and no other. *)
Theorem init_ready_iff_all_steps_succeed this fails :
  (BReady ∈ init this fails ↔ ∀ st, fails st = false) ∧
  ((∀ st, fails st = false) →
   (∀ e, BLog (LogError e) ∉ init this fails) ∧
   (∀ t, BInterval t ∈ init this fails ↔
         (autoTempFlush this).2 = Some t ∨ autoFlush this = Some t)).
Proof.
  destruct (init_shape this fails) as (pre & Hpre & [[[st Hst] ->]|[Hok ->]]).
  - split.
    + split.
      * rewrite elem_of_app, list_elem_of_singleton. intros [Hin|?]; [|done].
        by apply (not_boot_info pre BReady) in Hin.
      * intros Hok. specialize (Hok st). congruence.
    + intros Hok. specialize (Hok st). congruence.
  - split.
    + split; [done|]. intros _. rewrite elem_of_app. right. apply list_elem_of_here.
    + intros _. split.
      * intros e. rewrite elem_of_app, elem_of_cons, !elem_of_app.
        rewrite !elem_of_boot_timer.
        intros [Hin|[?|[Hin|[(tm & _ & ?)|(tm & _ & ?)]]]]; try done.
        -- by apply (not_boot_info pre (BLog (LogError e))) in Hin.
        -- by apply (not_boot_info _ (BLog (LogError e))
                       (autoTempFlush_log_info this)) in Hin.
      * intros t. rewrite elem_of_app, elem_of_cons, !elem_of_app.
        rewrite !elem_of_boot_timer. split.
        -- intros [Hin|[?|[Hin|[(tm & Htm & [= <-])|(tm & Htm & [= <-])]]]];
             try done; auto.
           ++ by apply (not_boot_info pre (BInterval t)) in Hin.
           ++ by apply (not_boot_info _ (BInterval t)
                          (autoTempFlush_log_info this)) in Hin.
        -- intros [Ht|Ht]; do 3 right; [left|right]; by exists t.
Qed.

Lemma init_ready_iff_all_steps_succeed_witness :
  BReady ∈ init verbose (λ _, false) ∧
  (BLog (LogError "request failed") ∉ init verbose (λ _, false)).
Proof.
  pose proof (init_ready_iff_all_steps_succeed verbose (λ _, false)) as [Hr Hok].
  split.
  - apply Hr. reflexivity.
  - apply Hok. reflexivity.
Defined.

(** X30.  A failed start-up is silent but for the log.  When one of the four
    steps fails, [init] ends by logging the error: it emits no "ready" and
    registers no timer. *)
Theorem init_failure_starts_nothing this fails :
  (∃ st, fails st = true) →
  (BReady ∉ init this fails) ∧
  (∀ t, BInterval t ∉ init this fails) ∧
  last (init this fails) = Some (BLog (LogError "request failed")).
Proof.
  intros [st Hst].
  destruct (init_shape this fails) as (pre & Hpre & [[_ ->]|[Hok _]]).
  - split; [|split].
    + rewrite elem_of_app, list_elem_of_singleton. intros [Hin|?]; [|done].
      by apply (not_boot_info pre BReady) in Hin.
    + intros t. rewrite elem_of_app, list_elem_of_singleton. intros [Hin|?]; [|done].
      by apply (not_boot_info pre (BInterval t)) in Hin.
    + apply last_snoc.
  - specialize (Hok st). congruence.
Qed.

Lemma init_failure_starts_nothing_witness :
  (BReady ∉ init verbose (λ st, if st is SqlConnect then true else false)) ∧
  init verbose (λ st, if st is SqlConnect then true else false)
  = [ BLog (LogInfo "CONNECTING TO REDIS...");
      BLog (LogInfo "CONNECTED TO REDIS!");
      BLog (LogInfo "CONNECTING TO SQL...");
      BLog (LogError "request failed") ].
Proof.
  split; [|reflexivity].
  refine (proj1 (init_failure_starts_nothing verbose
                   (λ st, if st is SqlConnect then true else false) _)).
  by exists SqlConnect.
Defined.
